(** * CSV-to-SQLite query server: initialization guard, loader and request gate

    A shallow embedding of the Express server that loads [public/orders.csv]
    into an in-memory SQLite table and serves SQL queries against it.

    The JavaScript source is single threaded: a handler runs without
    interruption until it reaches an [await] on a timer, a database callback
    or a stream event.  The embedding therefore cuts every [async] function
    at those points.  A task is the suspended rest of one activation, the
    two module-level flags and the database connection are the shared state,
    and one step of the system is one callback of the event loop.  A promise
    reaction (the [catch] block that follows a [reject]) is a microtask and
    belongs to the callback that settled the promise.

    The SQL engine and the CSV parser are libraries.  The parser is
    represented by the records it emits.  The insertion pass is written
    against the driver's prepared-statement interface and is embedded
    generically in the driver; three connections are put under it:

    - one that records the calls it receives, for the batching;
    - a reference engine that carries out a call at the moment it is handed
      over, under which the flags, the gate and the control flow of the
      event loop are studied;
    - one that queues the calls, as the driver does with a call that has no
      callback, under which the table is studied at the moment readiness is
      published. *)

From Stdlib Require Import Ascii.
From stdpp Require Import gmap strings list pretty.

(** ** JavaScript values and objects *)

Inductive jsval :=
| JUndefined
| JNull
| JStr (s : string)
| JNum (n : nat).

(** An object, as its properties in insertion order. *)
Definition object : Type := list (string * jsval).

(** [o[key]]: the value of the property, [undefined] when it is absent. *)
Fixpoint prop (key : string) (o : object) : jsval :=
  match o with
  | [] => JUndefined
  | (k, v) :: o' => if String.eqb k key then v else prop key o'
  end.

(** Conversion performed by a template literal [`${v}`]. *)
Definition to_text (v : jsval) : string :=
  match v with
  | JUndefined => "undefined"
  | JNull => "null"
  | JStr s => s
  | JNum n => pretty n
  end.

(** ** SQL statements built by the server

    The statement texts are assembled from templates; each template is one
    constructor, its holes are the arguments.  Header fields are spliced into
    the [CREATE TABLE] text as they are; they are taken to be plain
    identifiers, so that a column definition is a name and a type. *)

Inductive sql :=
| DropTableIfExists (tableName : string)
| CreateTable (tableName : string) (columnDefs : list (string * string))
| InsertValues (tableName : string) (placeholders : nat)
| PragmaTableInfo (tableName : string)
| SelectCount (tableName : string)
| SelectAll (tableName : string).

(** The prepared-statement part of the driver, as the loader uses it:
    [db.prepare], [stmt.run] and [stmt.finalize] are all called without a
    callback, so none of them hands a result or an error back. *)
Class Statements (Db Stmt : Type) := {
  db_prepare : sql → Db → Db * Stmt;
  stmt_run : Stmt → list jsval → Db → Db;
  stmt_finalize : Stmt → Db → Db
}.

(** ** Schema inference *)

Definition inferSchema (headerRow : list string) : list object :=
  map (λ header, [("name", JStr header); ("type", JStr "TEXT")]) headerRow.

Definition columnDefs (schema : list object) : list (string * string) :=
  map (λ col, (to_text (prop "name" col), to_text (prop "type" col))) schema.

(** ** The insertion pass of [loadCSVData] *)

Definition batchSize : nat := 1000.

Record counters := { batch : list object; totalRows : nat }.

(** What the ['end'] handler of the insertion pass leaves behind: the values
    it assigns to the two flags, the row count its promise resolves with,
    and the connection. *)
Record ended (Db : Type) := {
  end_isDatabaseInitialized : bool;
  end_isInitializing : bool;
  end_totalRows : nat;
  end_db : Db
}.

Arguments end_isDatabaseInitialized {Db} _.
Arguments end_isInitializing {Db} _.
Arguments end_totalRows {Db} _.
Arguments end_db {Db} _.

Section InsertPass.
Context {Db Stmt : Type} `{!Statements Db Stmt}.
Variables (tableName : string) (headers : list string).

Definition values (record : object) : list jsval :=
  map (λ header, prop header record) headers.

(** One prepared statement, run once per buffered record, then finalized. *)
Definition insertBatch (records : list object) (d : Db) : Db :=
  let placeholders := length (map (λ _ : string, "?") headers) in
  let '(d1, stmt) := db_prepare (InsertValues tableName placeholders) d in
  stmt_finalize stmt (foldl (λ d' record, stmt_run stmt (values record) d') d1 records).

(** The ['data'] handler. *)
Definition on_data (c : counters) (d : Db) (row : object) : counters * Db :=
  let batch' := batch c ++ [row] in
  if batchSize <=? length batch'
  then ({| batch := []; totalRows := totalRows c + length batch' |},
        insertBatch batch' d)
  else ({| batch := batch'; totalRows := totalRows c |}, d).

(** The ['end'] handler, up to the final row count. *)
Definition on_end (c : counters) (d : Db) : nat * Db :=
  if 0 <? length (batch c)
  then (totalRows c + length (batch c), insertBatch (batch c) d)
  else (totalRows c, d).

Definition feed (st : counters * Db) (row : object) : counters * Db :=
  on_data st.1 st.2 row.

(** A whole pass over a stream that ends without an error. *)
Definition insert_pass (records : list object) (d : Db) : nat * Db :=
  let st := foldl feed ({| batch := []; totalRows := 0 |}, d) records in
  on_end st.1 st.2.

(** The ['end'] handler as a whole: what is buffered goes to the driver,
    then both flags are assigned and the promise is resolved, all in the
    same callback. *)
Definition end_handler (c : counters) (d : Db) : ended Db :=
  let '(n, d') := on_end c d in
  {| end_isDatabaseInitialized := true; end_isInitializing := false;
     end_totalRows := n; end_db := d' |}.

(** A whole pass, up to the end of the ['end'] handler. *)
Definition end_of_pass (records : list object) (d : Db) : ended Db :=
  let st := foldl feed ({| batch := []; totalRows := 0 |}, d) records in
  end_handler st.1 st.2.
End InsertPass.

(** ** A connection that records the driver calls it receives *)

Inductive call :=
| CallPrepare (q : sql)
| CallRun (params : list jsval)
| CallFinalize.

#[export] Instance recording : Statements (list call) unit := {
  db_prepare q tr := (tr ++ [CallPrepare q], tt);
  stmt_run _ params tr := tr ++ [CallRun params];
  stmt_finalize _ tr := tr ++ [CallFinalize]
}.

(** The driver calls of one batch. *)
Definition batch_calls (tableName : string) (headers : list string)
    (records : list object) : list call :=
  CallPrepare (InsertValues tableName (length headers))
    :: map (λ record, CallRun (values headers record)) records ++ [CallFinalize].

(** Sizes of the batches in a recorded trace: the number of [run] calls
    between each [prepare] and the [finalize] that closes it. *)
Fixpoint batch_sizes_from (cur : option nat) (tr : list call) : list nat :=
  match tr with
  | [] => []
  | CallPrepare _ :: tr' => batch_sizes_from (Some 0) tr'
  | CallRun _ :: tr' => batch_sizes_from (S <$> cur) tr'
  | CallFinalize :: tr' =>
      match cur with
      | Some n => n :: batch_sizes_from None tr'
      | None => batch_sizes_from None tr'
      end
  end.

Definition batch_sizes (tr : list call) : list nat := batch_sizes_from None tr.

(** ** Reference semantics of the engine

    A database maps a table name to its declared columns and its rows.  A
    statement takes effect when it is handed to the connection.  For
    [db.all], whose callback the server awaits, this is the order the server
    sees; for the prepared statements of the loader it is an idealisation,
    and the connection that queues, further down, is the one to read the
    table by. *)

Record table := { columns : list (string * string); rows : list (list jsval) }.

(** What the promise of [runQuery] settles to. *)
Inductive settled :=
| Resolved (result : list object)
| Rejected (message : string).

(** A bound parameter as it is stored: [undefined] is stored as NULL. *)
Definition bind (v : jsval) : jsval :=
  match v with
  | JUndefined => JNull
  | _ => v
  end.

Definition table_info (t : table) : list object :=
  imap (λ cid col,
          [("cid", JNum cid); ("name", JStr col.1); ("type", JStr col.2);
           ("notnull", JNum 0); ("dflt_value", JNull); ("pk", JNum 0)])
       (columns t).

Definition select_all (t : table) : list object :=
  map (λ row, zip (map fst (columns t)) row) (rows t).

Definition insert_row (tableName : string) (row : list jsval)
    (d : gmap string table) : option (gmap string table) :=
  match d !! tableName with
  | Some t =>
      if length (columns t) =? length row
      then Some (<[tableName := {| columns := columns t; rows := rows t ++ [row] |}]> d)
      else None
  | None => None
  end.

(** [db.all(query, [], callback)]. *)
Definition db_all (q : sql) (d : gmap string table) : gmap string table * settled :=
  match q with
  | DropTableIfExists tableName => (delete tableName d, Resolved [])
  | CreateTable tableName defs =>
      match d !! tableName with
      | Some _ => (d, Rejected ("SQLITE_ERROR: table " +:+ tableName +:+ " already exists"))
      | None =>
          if bool_decide (NoDup (map fst defs)) && negb (length defs =? 0)
          then (<[tableName := {| columns := defs; rows := [] |}]> d, Resolved [])
          else (d, Rejected "SQLITE_ERROR: invalid column definitions")
      end
  | InsertValues tableName placeholders =>
      match insert_row tableName (replicate placeholders JNull) d with
      | Some d' => (d', Resolved [])
      | None => (d, Rejected ("SQLITE_ERROR: cannot insert into " +:+ tableName))
      end
  | PragmaTableInfo tableName =>
      (d, Resolved (from_option table_info [] (d !! tableName)))
  | SelectCount tableName =>
      match d !! tableName with
      | Some t => (d, Resolved [[("count", JNum (length (rows t)))]])
      | None => (d, Rejected ("SQLITE_ERROR: no such table: " +:+ tableName))
      end
  | SelectAll tableName =>
      match d !! tableName with
      | Some t => (d, Resolved (select_all t))
      | None => (d, Rejected ("SQLITE_ERROR: no such table: " +:+ tableName))
      end
  end.

(** Statements that leave every table as it is. *)
Definition read_only (q : sql) : bool :=
  match q with
  | PragmaTableInfo _ | SelectCount _ | SelectAll _ => true
  | _ => false
  end.

(** Prepared statements of the reference engine.  A statement that failed to
    compile, or a run whose parameters do not fit, inserts nothing; with no
    callback attached the caller is not told. *)
#[export] Instance reference : Statements (gmap string table) (option string) := {
  db_prepare q d :=
    match q with
    | InsertValues tableName placeholders =>
        match d !! tableName with
        | Some t => (d, if length (columns t) =? placeholders then Some tableName else None)
        | None => (d, None)
        end
    | _ => (d, None)
    end;
  stmt_run stmt params d :=
    match stmt with
    | Some tableName => default d (insert_row tableName (map bind params) d)
    | None => d
    end;
  stmt_finalize _ d := d
}.

(** ** A connection that queues

    The loader calls [db.prepare], [stmt.run] and [stmt.finalize] without a
    callback and outside [db.serialize].  The driver puts such a call on a
    queue and returns; the engine carries the queued calls out in later
    turns of the event loop.  [store] is what the engine holds, [pending]
    the calls it has yet to carry out, in the order in which they were
    made (the engine keeps that order within one statement, not across
    statements). *)

Record queued := { store : gmap string table; pending : list call }.

#[export] Instance deferring : Statements queued unit := {
  db_prepare q d := ({| store := store d; pending := pending d ++ [CallPrepare q] |}, tt);
  stmt_run _ params d := {| store := store d; pending := pending d ++ [CallRun params] |};
  stmt_finalize _ d := {| store := store d; pending := pending d ++ [CallFinalize] |}
}.

(** ** Shared state of the process *)

(** [public/orders.csv] as the parser delivers it: the header row, if the
    ['headers'] event fires at all, and one object per data row. *)
Record csv_file := { csv_headers : option (list string); csv_records : list object }.

(** A file whose rows have as many fields as the header: every record maps
    each header to the field below it. *)
Definition csv_of (header : list string) (lines : list (list string)) : csv_file :=
  {| csv_headers := Some header;
     csv_records := map (λ fields, zip header (map JStr fields)) lines |}.

(** [lastLoad] is a history variable: the header and the records of the load
    that last ran to its ['end'] event.  No code reads it. *)
Record shared := {
  isDatabaseInitialized : bool;
  isInitializing : bool;
  db : gmap string table;
  orders_csv : option csv_file;
  lastLoad : option (list string * list object)
}.

Definition set_isInitializing (b : bool) (σ : shared) : shared :=
  {| isDatabaseInitialized := isDatabaseInitialized σ; isInitializing := b;
     db := db σ; orders_csv := orders_csv σ; lastLoad := lastLoad σ |}.

Definition set_db (d : gmap string table) (σ : shared) : shared :=
  {| isDatabaseInitialized := isDatabaseInitialized σ; isInitializing := isInitializing σ;
     db := d; orders_csv := orders_csv σ; lastLoad := lastLoad σ |}.

Definition set_orders_csv (f : option csv_file) (σ : shared) : shared :=
  {| isDatabaseInitialized := isDatabaseInitialized σ; isInitializing := isInitializing σ;
     db := db σ; orders_csv := f; lastLoad := lastLoad σ |}.

(** The assignments of the ['end'] handler of the insertion pass. *)
Definition publish (d : gmap string table) (headers : list string)
    (records : list object) (σ : shared) : shared :=
  {| isDatabaseInitialized := true; isInitializing := false;
     db := d; orders_csv := orders_csv σ; lastLoad := Some (headers, records) |}.

(** The shared state as the next callback finds it when the ['end'] handler
    of a load of [records] under [headers] has run against the connection
    that queues: the flags as the handler assigned them, the tables as the
    engine holds them at that moment. *)
Definition after_end (r : ended queued) (headers : list string)
    (records : list object) (σ : shared) : shared :=
  {| isDatabaseInitialized := end_isDatabaseInitialized r;
     isInitializing := end_isInitializing r;
     db := store (end_db r); orders_csv := orders_csv σ;
     lastLoad := Some (headers, records) |}.

Definition runQuery (q : sql) (σ : shared) : shared * settled :=
  let '(d, r) := db_all q (db σ) in (set_db d σ, r).

(** ** Responses *)

Inductive body :=
| InitLoaded (rowCount : jsval) (tableName : string) (schema : list object)
| InitAlready (count : jsval) (schema : list object)
| Failure (message : string)
| QueryData (data : list object)
| SchemaInfo (schema : list object)
| Health (dbInitialized dbInitializing : bool)
| Plain (text : string)
| NoRoute.

(** The [success] field of a JSON body, when it has one.  [NoRoute] is the
    framework's own answer to a request no route matches. *)
Definition success (b : body) : option bool :=
  match b with
  | InitLoaded _ _ _ | InitAlready _ _ | QueryData _ | SchemaInfo _ => Some true
  | Failure _ => Some false
  | Health _ _ | Plain _ | NoRoute => None
  end.

(** How an activation ends: an HTTP response, or, for the start-up
    self-invocation, a log line. *)
Inductive result :=
| Response (status : nat) (b : body)
| AutoComplete
| AutoError (message : string).

(** Who awaits [loadCSVData]: the start-up block or the [/api/init] handler. *)
Inductive caller := AutoInit | ApiInit.

Definition returned (k : caller) (tableName : string) (rowCount : jsval)
    (schema : list object) : result :=
  match k with
  | ApiInit => Response 200 (InitLoaded rowCount tableName schema)
  | AutoInit => AutoComplete
  end.

Definition thrown (k : caller) (message : string) : result :=
  match k with
  | ApiInit => Response 500 (Failure ("Error initializing database: " +:+ message))
  | AutoInit => AutoError message
  end.

(** ** Suspended activations

    One constructor per [await]; the arguments are the live locals.  A
    pending [runQuery] carries what its promise will settle to.  In
    [Inserting], [seen] lists the records already emitted (a history
    variable) and [rest] those the stream has yet to emit. *)
Inductive pc :=
| Polling (k : caller)
| InfoPragma (k : caller) (r : settled)
| InfoCount (k : caller) (tableInfo : list object) (r : settled)
| HeaderPass (k : caller) (f : csv_file)
| Dropping (k : caller) (headers : list string) (r : settled)
| Creating (k : caller) (headers : list string) (r : settled)
| Inserting (k : caller) (headers : list string) (seen rest : list object) (c : counters)
| FastPragma (r : settled)
| FastCount (tableInfo : list object) (r : settled)
| Querying (r : settled)
| Describing (tableName : string) (r : settled)
| Finished (r : result).

(** What wakes a task up.  [StreamError] is an ['error'] event of the CSV
    parser, the stream the handlers are attached to.  An error of the file
    stream that feeds the parser has no listener: it ends the process and
    has no next state. *)
Inductive signal :=
| Timeout
| DbCallback
| StreamData
| StreamEnd
| StreamError (message : string).

Definition name_type (info : object) : object :=
  [("name", prop "name" info); ("type", prop "type" info)].

(** ** [loadCSVData]

    [filePath] is always [public/orders.csv], the file kept in [orders_csv];
    [tableName] is first used after the first [await]. *)

Section LoadCSVData.
Variable tableName : string.

(** The [catch] block: reset the flag and rethrow to the caller. *)
Definition caught (k : caller) (message : string) (σ : shared) : shared * pc :=
  (set_isInitializing false σ, Finished (thrown k message)).

(** From [isInitializing = true] to the first stream.  Opening a missing
    file raises an error on the file stream, which has no listener: the
    process dies and there is no next state. *)
Definition start_load (k : caller) (σ : shared) : option (shared * pc) :=
  f ← orders_csv σ;
  Some (set_isInitializing true σ, HeaderPass k f).

(** The call itself, up to its first [await]. *)
Definition loadCSVData (k : caller) (σ : shared) : option (shared * pc) :=
  if isInitializing σ then Some (σ, Polling k) else start_load k σ.

Definition resume_load (p : pc) (sg : signal) (σ : shared) : option (shared * pc) :=
  match p, sg with
  | Polling k, Timeout =>
      if isInitializing σ then Some (σ, Polling k)
      else if isDatabaseInitialized σ then
        let '(σ1, r) := runQuery (PragmaTableInfo tableName) σ in
        Some (σ1, InfoPragma k r)
      else start_load k σ
  | InfoPragma k (Rejected m), DbCallback => Some (caught k m σ)
  | InfoPragma k (Resolved tableInfo), DbCallback =>
      let '(σ1, r) := runQuery (SelectCount tableName) σ in
      Some (σ1, InfoCount k tableInfo r)
  | InfoCount k _ (Rejected m), DbCallback => Some (caught k m σ)
  | InfoCount k tableInfo (Resolved countResult), DbCallback =>
      match countResult with
      | [] => Some (caught k "Cannot read properties of undefined (reading 'count')" σ)
      | row :: _ =>
          Some (σ, Finished (returned k tableName (prop "count" row)
                               (map name_type tableInfo)))
      end
  | HeaderPass k f, StreamData => Some (σ, HeaderPass k f)
  | HeaderPass k f, StreamError m => Some (caught k m σ)
  | HeaderPass k f, StreamEnd =>
      match csv_headers f with
      | None => Some (caught k "Failed to process CSV headers" (set_isInitializing false σ))
      | Some headers =>
          if length headers =? 0
          then Some (caught k "Failed to process CSV headers" (set_isInitializing false σ))
          else
            let '(σ1, r) := runQuery (DropTableIfExists tableName) σ in
            Some (σ1, Dropping k headers r)
      end
  | Dropping k _ (Rejected m), DbCallback => Some (caught k m σ)
  | Dropping k headers (Resolved _), DbCallback =>
      let schema := inferSchema headers in
      let '(σ1, r) := runQuery (CreateTable tableName (columnDefs schema)) σ in
      Some (σ1, Creating k headers r)
  | Creating k _ (Rejected m), DbCallback => Some (caught k m σ)
  | Creating k headers (Resolved _), DbCallback =>
      f ← orders_csv σ;
      Some (σ, Inserting k headers [] (csv_records f) {| batch := []; totalRows := 0 |})
  | Inserting k headers seen (row :: rest) c, StreamData =>
      let '(c', d) := on_data tableName headers c (db σ) row in
      Some (set_db d σ, Inserting k headers (seen ++ [row]) rest c')
  | Inserting k headers seen [] c, StreamEnd =>
      let '(n, d) := on_end tableName headers c (db σ) in
      Some (publish d headers seen σ,
            Finished (returned k tableName (JNum n) (inferSchema headers)))
  | Inserting k _ _ _ _, StreamError m =>
      Some (caught k m (set_isInitializing false σ))
  | _, _ => None
  end.
End LoadCSVData.

(** ** The HTTP surface *)

Inductive method := GET | POST.

(** A request as it reaches [checkDatabaseReady], after the CORS, JSON-body
    and static-file layers.  [req_query] is [req.body.query], [None] when it
    is missing or empty. *)
Record request := { req_method : method; req_path : string; req_query : option sql }.

(** [checkDatabaseReady]: [None] stands for [next()]. *)
Definition checkDatabaseReady (req : request) (σ : shared) : option result :=
  if String.eqb (req_path req) "/api/init" || String.eqb (req_path req) "/health"
  then None
  else if negb (isDatabaseInitialized σ)
  then Some (Response 503
               (Failure "Database not initialized. Please call /api/init endpoint first."))
  else None.

(** The one table the server manages: both call sites of [loadCSVData] pass
    it as [tableName]. *)
Definition orders : string := "orders".

Definition init_failure (message : string) : result :=
  Response 500 (Failure ("Error initializing database: " +:+ message)).

(** [POST /api/init], up to its first [await]. *)
Definition api_init (σ : shared) : option (shared * pc) :=
  if isDatabaseInitialized σ && negb (isInitializing σ) then
    let '(σ1, r) := runQuery (PragmaTableInfo orders) σ in
    Some (σ1, FastPragma r)
  else
    match orders_csv σ with
    | None =>
        Some (σ, Finished (Response 404
                             (Failure "CSV file not found. Please upload the file first.")))
    | Some _ => loadCSVData ApiInit σ
    end.

(** [POST /api/query], up to its [await]. *)
Definition api_query (req : request) (σ : shared) : shared * pc :=
  match req_query req with
  | None => (σ, Finished (Response 400 (Failure "Query is required")))
  | Some q => let '(σ1, r) := runQuery q σ in (σ1, Querying r)
  end.

(** [GET /api/schema/:tableName], up to its [await]. *)
Definition api_schema (tableName : string) (σ : shared) : shared * pc :=
  let '(σ1, r) := runQuery (PragmaTableInfo tableName) σ in (σ1, Describing tableName r).

Definition health (σ : shared) : result :=
  Response 200 (Health (isDatabaseInitialized σ) (isInitializing σ)).

Fixpoint strip_prefix (pre s : string) : option string :=
  match pre, s with
  | EmptyString, _ => Some s
  | String a pre', String b s' => if Ascii.eqb a b then strip_prefix pre' s' else None
  | String _ _, EmptyString => None
  end.

Fixpoint has_slash (s : string) : bool :=
  match s with
  | EmptyString => false
  | String a s' => Ascii.eqb a "/"%char || has_slash s'
  end.

(** The [:tableName] segment of a path under [/api/schema/]. *)
Definition schema_param (path : string) : option string :=
  match strip_prefix "/api/schema/" path with
  | Some name => if String.eqb name "" || has_slash name then None else Some name
  | None => None
  end.

(** The routing table, in registration order. *)
Definition route (req : request) (σ : shared) : option (shared * pc) :=
  match req_method req with
  | GET =>
      if String.eqb (req_path req) "/" then
        Some (σ, Finished (Response 200 (Plain "backend is running !")))
      else if String.eqb (req_path req) "/health" then Some (σ, Finished (health σ))
      else match schema_param (req_path req) with
           | Some name => Some (api_schema name σ)
           | None => Some (σ, Finished (Response 404 NoRoute))
           end
  | POST =>
      if String.eqb (req_path req) "/api/init" then api_init σ
      else if String.eqb (req_path req) "/api/query" then Some (api_query req σ)
      else Some (σ, Finished (Response 404 NoRoute))
  end.

(** A request passes the gate, then the router. *)
Definition arrive (req : request) (σ : shared) : option (shared * pc) :=
  match checkDatabaseReady req σ with
  | Some r => Some (σ, Finished r)
  | None => route req σ
  end.

(** Continuations of the handlers that await the database themselves. *)
Definition resume_handler (p : pc) (sg : signal) (σ : shared) : option (shared * pc) :=
  match p, sg with
  | FastPragma (Rejected m), DbCallback => Some (σ, Finished (init_failure m))
  | FastPragma (Resolved tableInfo), DbCallback =>
      let '(σ1, r) := runQuery (SelectCount orders) σ in
      Some (σ1, FastCount tableInfo r)
  | FastCount _ (Rejected m), DbCallback => Some (σ, Finished (init_failure m))
  | FastCount tableInfo (Resolved countResult), DbCallback =>
      match countResult with
      | [] => Some (σ, Finished (init_failure
                                   "Cannot read properties of undefined (reading 'count')"))
      | row :: _ =>
          Some (σ, Finished (Response 200 (InitAlready (prop "count" row)
                                             (map name_type tableInfo))))
      end
  | Querying (Resolved data), DbCallback => Some (σ, Finished (Response 200 (QueryData data)))
  | Querying (Rejected m), DbCallback =>
      Some (σ, Finished (Response 400 (Failure ("Error executing query: " +:+ m))))
  | Describing tableName (Rejected m), DbCallback =>
      Some (σ, Finished (Response 500 (Failure ("Error fetching schema: " +:+ m))))
  | Describing tableName (Resolved tableInfo), DbCallback =>
      if length tableInfo =? 0
      then Some (σ, Finished (Response 404 (Failure ("Table " +:+ tableName +:+ " not found"))))
      else Some (σ, Finished (Response 200 (SchemaInfo (map name_type tableInfo))))
  | _, _ => None
  end.

Definition is_handler (p : pc) : bool :=
  match p with
  | FastPragma _ | FastCount _ _ | Querying _ | Describing _ _ => true
  | _ => false
  end.

Definition resume (p : pc) (sg : signal) (σ : shared) : option (shared * pc) :=
  if is_handler p then resume_handler p sg σ else resume_load orders p sg σ.

(** ** The event loop *)

Record sys := { mem : shared; tasks : list pc }.

Inductive event :=
| Arrive (req : request)
| Wake (t : nat) (sg : signal)
| FsWrite (f : option csv_file).

Definition step (s : sys) (e : event) : option sys :=
  match e with
  | Arrive req =>
      '(σ, p) ← arrive req (mem s);
      Some {| mem := σ; tasks := tasks s ++ [p] |}
  | Wake t sg =>
      p ← tasks s !! t;
      '(σ, p') ← resume p sg (mem s);
      Some {| mem := σ; tasks := <[t := p']> (tasks s) |}
  | FsWrite f => Some {| mem := set_orders_csv f (mem s); tasks := tasks s |}
  end.

Fixpoint run (s : sys) (evs : list event) : option sys :=
  match evs with
  | [] => Some s
  | e :: evs' => s' ← step s e; run s' evs'
  end.

Definition fresh (f : option csv_file) : shared :=
  {| isDatabaseInitialized := false; isInitializing := false;
     db := ∅; orders_csv := f; lastLoad := None |}.

(** Module start-up: the self-invoked block loads the file if it is there. *)
Definition boot (f : option csv_file) : sys :=
  match f with
  | Some _ =>
      match loadCSVData AutoInit (fresh f) with
      | Some (σ, p) => {| mem := σ; tasks := [p] |}
      | None => {| mem := fresh f; tasks := [] |}
      end
  | None => {| mem := fresh f; tasks := [] |}
  end.

Definition reachable (s : sys) : Prop :=
  ∃ f evs, run (boot f) evs = Some s.

(** ** Observations used in the statements *)

(** The tasks that are between [isInitializing = true] and the end of a load. *)
Definition is_loader (p : pc) : bool :=
  match p with
  | HeaderPass _ _ | Dropping _ _ _ | Creating _ _ _ | Inserting _ _ _ _ _ => true
  | _ => false
  end.

(** The callers of [loadCSVData] that found the database ready after polling. *)
Definition is_info (p : pc) : bool :=
  match p with
  | InfoPragma _ _ | InfoCount _ _ _ => true
  | _ => false
  end.

Definition loaders (s : sys) : list pc := List.filter is_loader (tasks s).

(** An activation that ended with an error for its caller. *)
Definition is_failure (r : result) : bool :=
  match r with
  | Response status _ => negb (status =? 200)
  | AutoError _ => true
  | AutoComplete => false
  end.

(** The table a complete load of [records] under [headers] leaves behind. *)
Definition loaded_table (headers : list string) (records : list object) : table :=
  {| columns := columnDefs (inferSchema headers);
     rows := map (λ record, map bind (values headers record)) records |}.

Definition writes (e : event) : bool :=
  match e with
  | Arrive req => from_option (λ q, negb (read_only q)) false (req_query req)
  | _ => false
  end.

Definition init_request : request :=
  {| req_method := POST; req_path := "/api/init"; req_query := None |}.

Definition query_request (q : sql) : request :=
  {| req_method := POST; req_path := "/api/query"; req_query := Some q |}.

(** What the database holds while a load is under way: after [CREATE TABLE]
    the empty table, during the insertion pass the records of the batches
    already handed to the engine. *)
Definition loader_ok (σ : shared) (p : pc) : Prop :=
  match p with
  | Creating _ headers (Resolved _) => db σ !! orders = Some (loaded_table headers [])
  | Inserting _ headers seen _ c =>
      ∃ flushed, seen = flushed ++ batch c
                 ∧ totalRows c = length flushed
                 ∧ length (batch c) < batchSize
                 ∧ db σ !! orders = Some (loaded_table headers flushed)
  | _ => True
  end.

(** The kinds of step a task can take, seen from the shared state. *)
Inductive transition (σ : shared) (p : pc) (σ' : shared) (p' : pc) : Prop :=
| Quiet :
    is_loader p = false → is_loader p' = false →
    isDatabaseInitialized σ' = isDatabaseInitialized σ →
    db σ' = db σ → lastLoad σ' = lastLoad σ → orders_csv σ' = orders_csv σ →
    (isInitializing σ' = isInitializing σ
     ∨ (is_info p = true ∧ isInitializing σ' = false)) →
    (is_info p' = true → is_info p = true ∨ isDatabaseInitialized σ = true) →
    transition σ p σ' p'
| Claim k f :
    is_loader p = false → p' = HeaderPass k f →
    isInitializing σ = false → isDatabaseInitialized σ = false →
    σ' = set_isInitializing true σ →
    transition σ p σ' p'
| Progress :
    is_loader p = true → is_loader p' = true →
    isDatabaseInitialized σ' = isDatabaseInitialized σ →
    isInitializing σ' = isInitializing σ →
    lastLoad σ' = lastLoad σ → orders_csv σ' = orders_csv σ →
    (loader_ok σ p → loader_ok σ' p') →
    transition σ p σ' p'
| Fail k message :
    is_loader p = true → p' = Finished (thrown k message) →
    isDatabaseInitialized σ' = isDatabaseInitialized σ →
    isInitializing σ' = false →
    db σ' = db σ → lastLoad σ' = lastLoad σ → orders_csv σ' = orders_csv σ →
    transition σ p σ' p'
| Publish k headers seen c :
    p = Inserting k headers seen [] c →
    p' = Finished (returned k orders (JNum (totalRows c + length (batch c)))
                     (inferSchema headers)) →
    σ' = publish (db σ') headers seen σ →
    (loader_ok σ p →
     db σ' !! orders = Some (loaded_table headers seen)
     ∧ totalRows c + length (batch c) = length seen) →
    transition σ p σ' p'.

(** What a request does on arrival: it joins the task pool without touching
    the flags, or it claims the load. *)
Inductive admission (req : request) (σ σ' : shared) (p : pc) : Prop :=
| Join :
    is_loader p = false → is_info p = false →
    isDatabaseInitialized σ' = isDatabaseInitialized σ →
    isInitializing σ' = isInitializing σ →
    lastLoad σ' = lastLoad σ → orders_csv σ' = orders_csv σ →
    (db σ' = db σ
     ∨ (isDatabaseInitialized σ = true ∧ writes (Arrive req) = true)) →
    admission req σ σ' p
| ClaimOnArrival f :
    p = HeaderPass ApiInit f →
    isInitializing σ = false → isDatabaseInitialized σ = false →
    σ' = set_isInitializing true σ →
    admission req σ σ' p.

(** The invariant of the event loop.  While [isInitializing] is set exactly
    one task is loading and readiness is not published; otherwise no task is
    loading.  A caller that reads the table after polling does so only once
    readiness is published, and readiness is published exactly when a load
    has completed. *)
Record invariant (s : sys) : Prop := {
  inv_loader :
    if isInitializing (mem s)
    then ∃ p, loaders s = [p] ∧ isDatabaseInitialized (mem s) = false
              ∧ loader_ok (mem s) p
    else loaders s = [];
  inv_info :
    Forall (λ p, is_info p = true → isDatabaseInitialized (mem s) = true) (tasks s);
  inv_published :
    isDatabaseInitialized (mem s) = true ↔ is_Some (lastLoad (mem s))
}.

(** ** Further observations *)

(** The parameter lists of the [run] calls of a trace, in order. *)
Fixpoint runs_of (tr : list call) : list (list jsval) :=
  match tr with
  | [] => []
  | CallRun params :: tr' => params :: runs_of tr'
  | _ :: tr' => runs_of tr'
  end.

Definition is_prepare (c : call) : bool :=
  match c with
  | CallPrepare _ => true
  | _ => false
  end.

Definition is_finalize (c : call) : bool :=
  match c with
  | CallFinalize => true
  | _ => false
  end.

(** The batch sizes for [n] records: the full batches, then the remainder
    when there is one. *)
Definition chunk_sizes (n : nat) : list nat :=
  replicate (n / batchSize) batchSize
  ++ (if n mod batchSize =? 0 then [] else [n mod batchSize]).

Definition health_request : request :=
  {| req_method := GET; req_path := "/health"; req_query := None |}.

(** The callbacks of one whole load by task [t], when nothing goes wrong:
    end of the header pass, [DROP], [CREATE], [n] records, end of stream. *)
Definition load_events (t n : nat) : list event :=
  [Wake t StreamEnd; Wake t DbCallback; Wake t DbCallback]
  ++ replicate n (Wake t StreamData) ++ [Wake t StreamEnd].

(** What [/api/query] answers once the promise of [runQuery] has settled. *)
Definition query_answer (r : settled) : result :=
  match r with
  | Resolved data => Response 200 (QueryData data)
  | Rejected m => Response 400 (Failure ("Error executing query: " +:+ m))
  end.

(** Proof steps for the transitions that leave the flags alone. *)
Ltac quiet := apply Quiet; simpl; solve [auto | discriminate].
Ltac join := apply Join; simpl; solve [auto | discriminate].

(** * Properties of the insertion pass *)

Section InsertPassFacts.
Context {Db Stmt : Type} `{!Statements Db Stmt}.
Variables (tableName : string) (headers : list string).

(** Buffered and counted rows together always number the rows read. *)
Lemma feed_counts st row :
  totalRows ((feed tableName headers) st row).1 + length (batch ((feed tableName headers) st row).1)
  = totalRows st.1 + length (batch st.1) + 1.
Proof.
  unfold feed, on_data.
  destruct (Nat.leb_spec batchSize (length (batch st.1 ++ [row]))); simpl;
    rewrite List.length_app; simpl; lia.
Qed.

Lemma foldl_feed_counts records st :
  let st' := foldl (feed tableName headers) st records in
  totalRows st'.1 + length (batch st'.1)
  = totalRows st.1 + length (batch st.1) + length records.
Proof.
  revert st. induction records as [|row records IH]; intros st; simpl.
  - lia.
  - rewrite IH, feed_counts. lia.
Qed.

Lemma on_end_count c d :
  (on_end tableName headers c d).1 = totalRows c + length (batch c).
Proof.
  unfold on_end. destruct (Nat.ltb_spec 0 (length (batch c))); simpl; lia.
Qed.

(** Below the batch size the handler only buffers. *)
Lemma foldl_feed_buffer records c d :
  length (batch c) + length records < batchSize →
  foldl (feed tableName headers) (c, d) records
  = ({| batch := batch c ++ records; totalRows := totalRows c |}, d).
Proof.
  revert c. induction records as [|row records IH]; intros c Hlen; simpl.
  - rewrite app_nil_r. by destruct c.
  - simpl in Hlen.
    assert ((feed tableName headers) (c, d) row
            = ({| batch := batch c ++ [row]; totalRows := totalRows c |}, d)) as ->.
    { unfold feed, on_data. cbn [fst snd batch totalRows].
      destruct (Nat.leb_spec batchSize (length (batch c ++ [row]))) as [Hge|Hlt];
        [|done].
      rewrite List.length_app in Hge. simpl in Hge. lia. }
    rewrite IH; simpl.
    + by rewrite <- app_assoc.
    + rewrite List.length_app. simpl. lia.
Qed.

(** The record that fills the buffer triggers exactly one batch. *)
Lemma foldl_feed_fill records c d :
  records ≠ [] →
  length (batch c) + length records = batchSize →
  foldl (feed tableName headers) (c, d) records
  = ({| batch := []; totalRows := totalRows c + batchSize |},
     insertBatch tableName headers (batch c ++ records) d).
Proof.
  intros Hne Hlen.
  destruct (exists_last Hne) as (front & row & ->).
  rewrite List.length_app in Hlen. simpl in Hlen.
  rewrite foldl_app, foldl_feed_buffer by lia. cbn [foldl].
  unfold feed at 1. unfold on_data. cbn [fst snd batch totalRows].
  destruct (Nat.leb_spec batchSize (length ((batch c ++ front) ++ [row]))) as [Hge|Hlt].
  - rewrite <- app_assoc. f_equal. f_equal.
    rewrite !List.length_app. simpl. lia.
  - rewrite !List.length_app in Hlt. simpl in Hlt. lia.
Qed.
End InsertPassFacts.

(** What one batch adds to a recorded trace. *)
Lemma recording_runs headers (records : list object) (tr : list call) :
  foldl (λ d' record, d' ++ [CallRun (values headers record)]) tr records
  = tr ++ map (λ record, CallRun (values headers record)) records.
Proof.
  revert tr. induction records as [|r records IH]; intros tr; simpl.
  - by rewrite app_nil_r.
  - rewrite IH. by rewrite <- app_assoc.
Qed.

Lemma recording_insertBatch tableName headers records (tr : list call) :
  insertBatch tableName headers records tr
  = tr ++ batch_calls tableName headers records.
Proof.
  unfold insertBatch, batch_calls. simpl.
  rewrite recording_runs, List.length_map.
  rewrite <- !app_assoc. reflexivity.
Qed.

Lemma batch_sizes_runs headers (records : list object) n tr :
  batch_sizes_from (Some n)
    (map (λ record, CallRun (values headers record)) records ++ CallFinalize :: tr)
  = (n + length records) :: batch_sizes_from None tr.
Proof.
  revert n. induction records as [|r records IH]; intros n; simpl.
  - f_equal. lia.
  - rewrite IH. f_equal. lia.
Qed.

Lemma batch_sizes_batch tableName headers records tr :
  batch_sizes_from None (batch_calls tableName headers records ++ tr)
  = length records :: batch_sizes_from None tr.
Proof.
  unfold batch_calls. simpl. rewrite <- app_assoc. simpl.
  apply batch_sizes_runs.
Qed.

(** C7: a file with exactly 2001 data rows is inserted in three batches of
    1000, 1000 and 1 records, each with its own prepared statement, and the
    pass reports 2001 rows. *)
Theorem batch_boundary_2001 tableName headers (records : list object) :
  length records = 2001 →
  insert_pass tableName headers records ([] : list call)
  = (2001,
     batch_calls tableName headers (take 1000 records)
     ++ batch_calls tableName headers (take 1000 (drop 1000 records))
     ++ batch_calls tableName headers (drop 2000 records))
  ∧ batch_sizes (insert_pass tableName headers records ([] : list call)).2
    = [1000; 1000; 1].
Proof.
  intros Hlen.
  set (b1 := take 1000 records).
  set (b2 := take 1000 (drop 1000 records)).
  set (b3 := drop 2000 records).
  assert (Hsplit : records = b1 ++ b2 ++ b3).
  { unfold b1, b2, b3.
    replace (drop 2000 records) with (drop 1000 (drop 1000 records))
      by (rewrite drop_drop; f_equal).
    by rewrite !take_drop. }
  assert (H1 : length b1 = batchSize).
  { unfold b1, batchSize. rewrite length_take. lia. }
  assert (H2 : length b2 = batchSize).
  { unfold b2, batchSize. rewrite length_take, length_drop. lia. }
  assert (H3 : length b3 = 1).
  { unfold b3. rewrite length_drop. lia. }
  assert (Hpass : insert_pass tableName headers records ([] : list call)
                  = (2001, batch_calls tableName headers b1
                           ++ batch_calls tableName headers b2
                           ++ batch_calls tableName headers b3)).
  { assert (Hn1 : b1 ≠ []) by (intros E; rewrite E in H1; discriminate).
    assert (Hn2 : b2 ≠ []) by (intros E; rewrite E in H2; discriminate).
    unfold insert_pass. rewrite Hsplit, !foldl_app.
    rewrite (foldl_feed_fill tableName headers b1) by (cbn [batch length]; done || lia).
    cbn [batch totalRows].
    rewrite (foldl_feed_fill tableName headers b2) by (cbn [batch length]; done || lia).
    cbn [batch totalRows].
    rewrite (foldl_feed_buffer tableName headers b3)
      by (cbn [batch length]; unfold batchSize; lia).
    unfold on_end. cbn [fst snd batch totalRows app].
    destruct (Nat.ltb_spec 0 (length b3)); [|lia].
    rewrite !recording_insertBatch. cbn [app].
    rewrite <- app_assoc. f_equal. unfold batchSize in *. lia. }
  split; [exact Hpass|].
  rewrite Hpass. cbn [snd]. unfold batch_sizes.
  rewrite !batch_sizes_batch.
  replace (batch_calls tableName headers b3)
    with (batch_calls tableName headers b3 ++ []) by apply app_nil_r.
  rewrite batch_sizes_batch, H1, H2, H3. reflexivity.
Qed.

Lemma batch_boundary_2001_witness :
  batch_sizes (insert_pass "orders" ["a"]
                 (replicate 2001 [("a", JStr "1")]) ([] : list call)).2
  = [1000; 1000; 1].
Proof.
  apply (batch_boundary_2001 "orders" ["a"] (replicate 2001 [("a", JStr "1")])).
  vm_compute. reflexivity.
Defined.

Lemma insert_pass_count {Db Stmt : Type} `{!Statements Db Stmt}
    tableName headers (records : list object) (d : Db) :
  (insert_pass tableName headers records d).1 = length records.
Proof.
  unfold insert_pass. rewrite on_end_count.
  pose proof (foldl_feed_counts tableName headers records
                ({| batch := []; totalRows := 0 |}, d)) as Hc.
  simpl in Hc. lia.
Qed.

(** C10: the row count a load reports is the number of records the stream
    delivered, whatever the driver does with the statements: no result of
    [prepare], [run] or [finalize] reaches the counter.  On a database that
    has no table at all every insert fails, and three records are still
    reported as three rows. *)
Theorem rowCount_counts_records :
  (∀ (Db Stmt : Type) (driver : Statements Db Stmt) tableName headers
     (records : list object) (d : Db),
     (insert_pass tableName headers records d).1 = length records)
  ∧ insert_pass "orders" ["a"]
      (replicate 3 [("a", JStr "1")]) (∅ : gmap string table)
    = (3, ∅).
Proof.
  split.
  - intros Db Stmt driver tableName headers records d.
    apply insert_pass_count.
  - vm_compute. reflexivity.
Qed.

(** * The reference engine under the loader *)

Lemma length_columnDefs headers :
  length (columnDefs (inferSchema headers)) = length headers.
Proof. unfold columnDefs, inferSchema. by rewrite !List.length_map. Qed.

Lemma length_values headers record : length (values headers record) = length headers.
Proof. unfold values. by rewrite List.length_map. Qed.

Lemma loaded_table_snoc headers flushed record :
  {| columns := columns (loaded_table headers flushed);
     rows := rows (loaded_table headers flushed)
             ++ [map bind (values headers record)] |}
  = loaded_table headers (flushed ++ [record]).
Proof. unfold loaded_table. simpl. by rewrite List.map_app. Qed.

Lemma reference_run tableName headers flushed record (d : gmap string table) :
  d !! tableName = Some (loaded_table headers flushed) →
  stmt_run (Some tableName) (values headers record) d
  = <[tableName := loaded_table headers (flushed ++ [record])]> d.
Proof.
  intros Hd. simpl. unfold insert_row. rewrite Hd.
  replace (length (columns (loaded_table headers flushed))
           =? length (map bind (values headers record))) with true.
  - simpl. by rewrite <- loaded_table_snoc.
  - symmetry. apply Nat.eqb_eq. simpl.
    by rewrite List.length_map, length_values, length_columnDefs.
Qed.

Lemma reference_runs tableName headers records : ∀ flushed (d : gmap string table),
  d !! tableName = Some (loaded_table headers flushed) →
  foldl (λ d' record, stmt_run (Some tableName) (values headers record) d') d records
  = <[tableName := loaded_table headers (flushed ++ records)]> d.
Proof.
  induction records as [|record records IH]; intros flushed d Hd.
  - rewrite app_nil_r. symmetry. by apply insert_id.
  - cbn [foldl]. rewrite (reference_run _ _ flushed) by done.
    rewrite (IH (flushed ++ [record])) by apply lookup_insert_eq.
    rewrite insert_insert_eq. by rewrite <- app_assoc.
Qed.

(** A batch sent to the table a load created appends exactly its records. *)
Lemma reference_insertBatch tableName headers flushed records (d : gmap string table) :
  d !! tableName = Some (loaded_table headers flushed) →
  insertBatch tableName headers records d
  = <[tableName := loaded_table headers (flushed ++ records)]> d.
Proof.
  intros Hd. unfold insertBatch. cbn [db_prepare stmt_finalize reference].
  rewrite Hd.
  replace (length (columns (loaded_table headers flushed))
           =? length (map (λ _ : string, "?") headers)) with true.
  - by apply reference_runs.
  - symmetry. apply Nat.eqb_eq. simpl.
    by rewrite List.length_map, length_columnDefs.
Qed.

(** * Steps of a single task *)

Lemma runQuery_spec q σ :
  runQuery q σ = (set_db (db_all q (db σ)).1 σ, (db_all q (db σ)).2).
Proof. unfold runQuery. by destruct (db_all q (db σ)). Qed.

Lemma db_all_read_only q (d : gmap string table) :
  read_only q = true → (db_all q d).1 = d.
Proof. destruct q; try discriminate; intros _; simpl; by repeat case_match. Qed.

Lemma set_db_same σ : set_db (db σ) σ = σ.
Proof. by destruct σ. Qed.

Lemma create_resolved tableName defs (d : gmap string table) result :
  (db_all (CreateTable tableName defs) d).2 = Resolved result →
  (db_all (CreateTable tableName defs) d).1 !! tableName
  = Some {| columns := defs; rows := [] |}.
Proof.
  simpl. destruct (d !! tableName); [discriminate|].
  case_match; [|discriminate]. intros _. simpl. apply lookup_insert_eq.
Qed.

Lemma on_data_ok headers seen rest c (σ : shared) k row :
  loader_ok σ (Inserting k headers seen (row :: rest) c) →
  loader_ok (set_db (on_data orders headers c (db σ) row).2 σ)
    (Inserting k headers (seen ++ [row]) rest (on_data orders headers c (db σ) row).1).
Proof.
  intros (flushed & Hseen & Htotal & Hlt & Hdb). unfold on_data.
  destruct (Nat.leb_spec batchSize (length (batch c ++ [row]))) as [Hge|Hless];
    cbn [fst snd loader_ok batch totalRows db set_db].
  - exists (seen ++ [row]). split_and!.
    + by rewrite app_nil_r.
    + rewrite Hseen, !List.length_app. lia.
    + cbn [length]. unfold batchSize. lia.
    + rewrite (reference_insertBatch _ _ flushed) by done.
      rewrite lookup_insert_eq, Hseen, <- app_assoc. done.
  - exists flushed. split_and!; try done.
    by rewrite Hseen, <- app_assoc.
Qed.

Lemma on_end_ok headers seen c (σ : shared) k :
  loader_ok σ (Inserting k headers seen [] c) →
  (on_end orders headers c (db σ)).2 !! orders = Some (loaded_table headers seen)
  ∧ (on_end orders headers c (db σ)).1 = length seen.
Proof.
  intros (flushed & Hseen & Htotal & Hlt & Hdb). unfold on_end.
  destruct (Nat.ltb_spec 0 (length (batch c))) as [Hpos|Hzero]; cbn [fst snd].
  - rewrite (reference_insertBatch _ _ flushed) by done.
    rewrite lookup_insert_eq, Hseen, List.length_app. split; [done|lia].
  - assert (batch c = []) as Hb by (destruct (batch c); [done|simpl in Hzero; lia]).
    rewrite Hseen, Hb, app_nil_r. split; [done|lia].
Qed.

Lemma on_end_spec headers c (d : gmap string table) :
  on_end orders headers c d
  = (totalRows c + length (batch c), (on_end orders headers c d).2).
Proof.
  rewrite <- (on_end_count orders headers c d).
  by destruct (on_end orders headers c d).
Qed.

Lemma on_data_spec headers c (d : gmap string table) row :
  on_data orders headers c d row
  = ((on_data orders headers c d row).1, (on_data orders headers c d row).2).
Proof. by destruct (on_data orders headers c d row). Qed.

#[local] Opaque db_all on_data on_end.

(** Every continuation is one of the five kinds of [transition]. *)
Lemma resume_cases p sg σ σ' p' :
  resume p sg σ = Some (σ', p') → transition σ p σ' p'.
Proof.
  unfold resume.
  destruct p as [k|k r|k tableInfo r|k f|k headers r|k headers r
                |k headers seen rest c|r|tableInfo r|r|tableName r|r];
    cbn [is_handler]; unfold resume_load, resume_handler, start_load, caught;
    rewrite ?runQuery_spec; rewrite ?db_all_read_only by done;
    rewrite ?set_db_same.
  - (* Polling *)
    destruct sg; try discriminate.
    destruct (isInitializing σ) eqn:Hinit.
    { intros [= <- <-]. quiet. }
    destruct (isDatabaseInitialized σ) eqn:Hready.
    { intros [= <- <-]. quiet. }
    destruct (orders_csv σ) as [f|]; [|discriminate].
    intros [= <- <-]. by eapply Claim.
  - (* InfoPragma *)
    destruct r, sg; try discriminate; intros [= <- <-]; quiet.
  - (* InfoCount *)
    destruct r as [[|row ?]|], sg; try discriminate; intros [= <- <-];
      quiet.
  - (* HeaderPass *)
    destruct sg; try discriminate.
    + intros [= <- <-]. apply Progress; auto.
    + destruct (csv_headers f) as [headers|].
      * destruct (length headers =? 0).
        -- intros [= <- <-]. by eapply Fail.
        -- intros [= <- <-]. apply Progress; auto.
      * intros [= <- <-]. by eapply Fail.
    + intros [= <- <-]. by eapply Fail.
  - (* Dropping *)
    destruct r, sg; try discriminate; intros [= <- <-].
    + apply Progress; auto. intros _.
      match goal with
      | |- context [(db_all ?q ?d).2] => destruct (db_all q d).2 eqn:Hr; [|done]
      end.
      cbn [loader_ok db set_db]. by eapply create_resolved.
    + by eapply Fail.
  - (* Creating *)
    destruct r, sg; try discriminate.
    + destruct (orders_csv σ) as [f|]; [|discriminate].
      intros [= <- <-]. apply Progress; auto.
      cbn [loader_ok]. intros Hdb. exists []. split_and!; try done.
      unfold batchSize. simpl. lia.
    + intros [= <- <-]. by eapply Fail.
  - (* Inserting *)
    destruct rest as [|row rest], sg; try discriminate.
    + rewrite on_end_spec. intros [= <- <-].
      eapply Publish; [done|done|done|].
      intros Hok. destruct (on_end_ok _ _ _ _ _ Hok) as [Hdb Hn].
      rewrite on_end_count in Hn. done.
    + intros [= <- <-]. by eapply Fail.
    + rewrite on_data_spec. intros [= <- <-].
      apply Progress; auto. apply on_data_ok.
    + intros [= <- <-]. by eapply Fail.
  - (* FastPragma *)
    destruct r, sg; try discriminate; intros [= <- <-]; quiet.
  - (* FastCount *)
    destruct r as [[|row ?]|], sg; try discriminate; intros [= <- <-];
      quiet.
  - (* Querying *)
    destruct r, sg; try discriminate; intros [= <- <-]; quiet.
  - (* Describing *)
    destruct r as [tableInfo|m], sg; try discriminate.
    + destruct (length tableInfo =? 0); intros [= <- <-]; quiet.
    + intros [= <- <-]; quiet.
  - destruct sg; discriminate.
Qed.

#[local] Transparent db_all on_data on_end.

Lemma api_init_cases req σ σ' p :
  api_init σ = Some (σ', p) → admission req σ σ' p.
Proof.
  unfold api_init, loadCSVData, start_load.
  rewrite runQuery_spec, db_all_read_only, set_db_same by done.
  destruct (isDatabaseInitialized σ) eqn:Hready,
           (isInitializing σ) eqn:Hinit; cbn [andb negb].
  - destruct (orders_csv σ); intros [= <- <-]; join.
  - intros [= <- <-]; join.
  - destruct (orders_csv σ); intros [= <- <-]; join.
  - destruct (orders_csv σ) as [f|] eqn:Hcsv; cbn [mbind option_bind].
    + intros [= <- <-]. by eapply ClaimOnArrival.
    + intros [= <- <-]; join.
Qed.

(** The gate admits a path other than [/api/init] and [/health] only once
    readiness is published. *)
Lemma gate_open req σ :
  checkDatabaseReady req σ = None →
  req_path req = "/api/init" ∨ req_path req = "/health"
  ∨ isDatabaseInitialized σ = true.
Proof.
  unfold checkDatabaseReady.
  destruct (String.eqb_spec (req_path req) "/api/init"); [auto|].
  destruct (String.eqb_spec (req_path req) "/health"); [auto|].
  cbn [orb]. destruct (isDatabaseInitialized σ); [auto|discriminate].
Qed.

Lemma arrive_cases req σ σ' p :
  arrive req σ = Some (σ', p) → admission req σ σ' p.
Proof.
  unfold arrive.
  destruct (checkDatabaseReady req σ) as [r|] eqn:Hgate.
  { intros [= <- <-]; join. }
  unfold route. destruct (req_method req).
  - destruct (String.eqb (req_path req) "/"); [intros [= <- <-]; join|].
    destruct (String.eqb (req_path req) "/health"); [intros [= <- <-]; join|].
    destruct (schema_param (req_path req)) as [name|]; [|intros [= <- <-]; join].
    unfold api_schema.
    rewrite runQuery_spec, db_all_read_only, set_db_same by done.
    intros [= <- <-]; join.
  - destruct (String.eqb_spec (req_path req) "/api/init") as [Hinit|Hinit].
    { apply api_init_cases. }
    destruct (String.eqb_spec (req_path req) "/api/query") as [Hquery|Hquery];
      [|intros [= <- <-]; join].
    unfold api_query.
    destruct (req_query req) as [q|] eqn:Hq; [|intros [= <- <-]; join].
    rewrite runQuery_spec. intros [= <- <-].
    apply Join; simpl; auto.
    destruct (read_only q) eqn:Hro.
    + left. by apply db_all_read_only.
    + right. split.
      * destruct (gate_open _ _ Hgate) as [E|[E|E]]; [done| |done].
        rewrite Hquery in E. discriminate.
      * unfold writes. by rewrite Hq; simpl; rewrite Hro.
Qed.

(** * The invariant *)

Lemma task_split (l : list pc) t p p' :
  l !! t = Some p →
  ∃ front back, l = front ++ p :: back ∧ <[t := p']> l = front ++ p' :: back.
Proof.
  intros Hl. exists (take t l), (drop (S t) l). split.
  - symmetry. by apply take_drop_middle.
  - apply insert_take_drop. by eapply lookup_lt_Some.
Qed.

Lemma loaders_middle front p back :
  List.filter is_loader (front ++ p :: back)
  = List.filter is_loader front
    ++ (if is_loader p then [p] else []) ++ List.filter is_loader back.
Proof. rewrite List.filter_app. simpl. by destruct (is_loader p). Qed.

Lemma loaders_snoc l p :
  List.filter is_loader (l ++ [p])
  = List.filter is_loader l ++ (if is_loader p then [p] else []).
Proof. rewrite List.filter_app. simpl. by destruct (is_loader p). Qed.

Lemma loader_ok_db σ σ' p : db σ' = db σ → loader_ok σ p → loader_ok σ' p.
Proof. intros Hdb. destruct p; simpl; try done; by rewrite Hdb. Qed.

(** Where the loading task sits, the others are not loading. *)
Lemma sole_loader front p back q :
  is_loader p = true →
  List.filter is_loader (front ++ p :: back) = [q] →
  List.filter is_loader front = [] ∧ List.filter is_loader back = [] ∧ q = p.
Proof.
  rewrite loaders_middle. intros ->.
  destruct (List.filter is_loader front) as [|a [|??]];
    destruct (List.filter is_loader back); simpl; intros [=]; by subst.
Qed.

Lemma no_loader front p back :
  List.filter is_loader (front ++ p :: back) = [] →
  List.filter is_loader front = [] ∧ List.filter is_loader back = []
  ∧ is_loader p = false.
Proof.
  rewrite loaders_middle. destruct (is_loader p);
    destruct (List.filter is_loader front), (List.filter is_loader back);
    simpl; intros [=]; done.
Qed.

(** A task that loads holds the flag, and it is the only one that loads. *)
Lemma loading_holds_flag σ front p back :
  invariant {| mem := σ; tasks := front ++ p :: back |} →
  is_loader p = true →
  isInitializing σ = true ∧ isDatabaseInitialized σ = false ∧ loader_ok σ p
  ∧ List.filter is_loader front = [] ∧ List.filter is_loader back = [].
Proof.
  intros Hinv Hp. pose proof (inv_loader _ Hinv) as H.
  simpl in H. unfold loaders in H. simpl in H.
  destruct (isInitializing σ).
  - destruct H as (q & Hq & Hready & Hok).
    destruct (sole_loader _ _ _ _ Hp Hq) as (? & ? & ->). done.
  - apply no_loader in H as (_ & _ & H). congruence.
Qed.

Lemma wake_invariant σ σ' front back p p' :
  invariant {| mem := σ; tasks := front ++ p :: back |} →
  transition σ p σ' p' →
  invariant {| mem := σ'; tasks := front ++ p' :: back |}.
Proof.
  intros Hinv Hstep.
  pose proof (inv_loader _ Hinv) as HL. pose proof (inv_info _ Hinv) as HI.
  pose proof (inv_published _ Hinv) as HP.
  simpl in HL, HI, HP. unfold loaders in HL. simpl in HL.
  apply Forall_app in HI as [HIf HIb]. apply Forall_cons in HIb as [HIp HIb].
  destruct Hstep as [Hp Hp' Hready Hdb Hlast Hcsv Hflag Hinfo'
                    |k f Hp -> Hflag Hready ->
                    |Hp Hp' Hready Hflag Hlast Hcsv Hok
                    |k message Hp -> Hready Hflag Hdb Hlast Hcsv
                    |k headers seen c -> -> Hσ' Hok].
  - (* Quiet *)
    assert (isInitializing σ' = isInitializing σ) as Hsame.
    { destruct Hflag as [|[Hi Hf]]; [done|].
      rewrite Hf. specialize (HIp Hi). destruct (isInitializing σ); [|done].
      destruct HL as (? & _ & ? & _). congruence. }
    split; simpl; unfold loaders; simpl.
    + rewrite Hsame, Hready. rewrite loaders_middle, Hp' in *. rewrite Hp in HL.
      destruct (isInitializing σ); [|done].
      destruct HL as (q & ? & ? & ?). exists q. eauto using loader_ok_db.
    + rewrite Hready. apply Forall_app. split; [done|].
      apply Forall_cons. split; [|done].
      intros Hi. destruct (Hinfo' Hi); auto.
    + by rewrite Hready, Hlast.
  - (* Claim *)
    rewrite Hflag in HL. apply no_loader in HL as (Hf & Hb & _).
    split; simpl; unfold loaders; simpl.
    + rewrite loaders_middle, Hf, Hb. simpl. by exists (HeaderPass k f).
    + apply Forall_app. split; [done|]. apply Forall_cons. split; done.
    + done.
  - (* Progress *)
    destruct (loading_holds_flag _ _ _ _ Hinv Hp) as (Hi & Hr & Hokp & Hf & Hb).
    split; simpl; unfold loaders; simpl.
    + rewrite Hflag, Hi, Hready, loaders_middle, Hf, Hb, Hp'. simpl.
      exists p'. auto.
    + rewrite Hready. apply Forall_app. split; [done|].
      apply Forall_cons. split; [|done].
      destruct p'; try discriminate; done.
    + by rewrite Hready, Hlast.
  - (* Fail *)
    destruct (loading_holds_flag _ _ _ _ Hinv Hp) as (Hi & Hr & Hokp & Hf & Hb).
    split; simpl; unfold loaders; simpl.
    + rewrite Hflag, loaders_middle, Hf, Hb. done.
    + rewrite Hready. apply Forall_app. split; [done|].
      apply Forall_cons. split; done.
    + by rewrite Hready, Hlast.
  - (* Publish *)
    destruct (loading_holds_flag _ _ _ _ Hinv eq_refl) as (Hi & Hr & Hokp & Hf & Hb).
    rewrite Hσ'.
    split; simpl; unfold loaders; simpl.
    + rewrite loaders_middle, Hf, Hb. done.
    + apply Forall_forall. done.
    + split; [eauto|done].
Qed.

Lemma arrive_invariant s req σ' p :
  invariant s → admission req (mem s) σ' p →
  invariant {| mem := σ'; tasks := tasks s ++ [p] |}.
Proof.
  intros Hinv Hadm.
  pose proof (inv_loader _ Hinv) as HL. pose proof (inv_info _ Hinv) as HI.
  pose proof (inv_published _ Hinv) as HP. unfold loaders in HL.
  destruct Hadm as [Hp Hi Hready Hflag Hlast Hcsv Hdb|f -> Hflag Hready ->].
  - split; simpl; unfold loaders; simpl.
    + rewrite Hflag, Hready, loaders_snoc, Hp, app_nil_r.
      destruct (isInitializing (mem s)); [|done].
      destruct HL as (q & Hq & Hr & Hok). exists q. split_and!; try done.
      destruct Hdb as [Hdb|[Hr' _]]; [|congruence].
      by eapply loader_ok_db.
    + rewrite Hready. apply Forall_app. split; [done|].
      apply Forall_cons. split; [intros ?; congruence|done].
    + by rewrite Hready, Hlast.
  - rewrite Hflag in HL.
    split; simpl; unfold loaders; simpl.
    + rewrite loaders_snoc, HL. simpl. by exists (HeaderPass ApiInit f).
    + apply Forall_app. split; [done|]. apply Forall_cons. split; done.
    + done.
Qed.

Theorem step_invariant s e s' :
  step s e = Some s' → invariant s → invariant s'.
Proof.
  destruct s as [σ l]. destruct e as [req|t sg|f]; simpl.
  - destruct (arrive req σ) as [[σ1 p]|] eqn:Harr; [|discriminate].
    intros [= <-] Hinv.
    apply (arrive_invariant {| mem := σ; tasks := l |} req); [done|].
    by apply arrive_cases.
  - destruct (l !! t) as [p|] eqn:Hp; [|discriminate]. simpl.
    destruct (resume p sg σ) as [[σ1 p']|] eqn:Hres; [|discriminate].
    intros [= <-] Hinv.
    destruct (task_split l t p p' Hp) as (front & back & -> & ->).
    eapply wake_invariant; [done|]. by eapply resume_cases.
  - intros [= <-] [HL HI HP]. by split.
Qed.

Lemma boot_invariant f : invariant (boot f).
Proof.
  destruct f as [f|]; simpl; split; simpl; try done.
  - by exists (HeaderPass AutoInit f).
  - apply Forall_cons. split; done.
Qed.

Lemma run_invariant evs : ∀ s s',
  run s evs = Some s' → invariant s → invariant s'.
Proof.
  induction evs as [|e evs IH]; intros s s'; simpl.
  - by intros [= <-].
  - destruct (step s e) as [s1|] eqn:Hstep; [|discriminate]. simpl.
    intros Hrun Hinv. eapply IH; [done|]. by eapply step_invariant.
Qed.

Lemma reachable_invariant s : reachable s → invariant s.
Proof.
  intros (f & evs & Hrun). eapply run_invariant; [done|]. apply boot_invariant.
Qed.

(** * Readiness, once published, stays published *)

Lemma transition_keeps_ready σ p σ' p' :
  transition σ p σ' p' →
  isDatabaseInitialized σ = true → isDatabaseInitialized σ' = true.
Proof.
  intros [? ? Hready|? ? ? ? ? ? ->|? ? Hready|? ? ? ? Hready|? ? ? ? ? ? ->];
    simpl; congruence.
Qed.

Lemma admission_keeps_ready req σ σ' p :
  admission req σ σ' p →
  isDatabaseInitialized σ = true → isDatabaseInitialized σ' = true.
Proof. intros [? ? Hready|? ? ? ? ->]; simpl; congruence. Qed.

Lemma step_keeps_ready s e s' :
  step s e = Some s' →
  isDatabaseInitialized (mem s) = true → isDatabaseInitialized (mem s') = true.
Proof.
  destruct e as [req|t sg|f]; simpl.
  - destruct (arrive req (mem s)) as [[σ1 p]|] eqn:Harr; [|discriminate].
    intros [= <-]. simpl. eapply admission_keeps_ready. by apply arrive_cases.
  - destruct (tasks s !! t) as [p|]; [|discriminate]. simpl.
    destruct (resume p sg (mem s)) as [[σ1 p']|] eqn:Hres; [|discriminate].
    intros [= <-]. simpl. eapply transition_keeps_ready. by eapply resume_cases.
  - by intros [= <-].
Qed.

(** C9: [isDatabaseInitialized] is monotone.  From any state in which it is
    set, whatever tasks are pending there (a load that is about to fail
    included), no sequence of callbacks and requests clears it. *)
Theorem readiness_is_monotone s evs s' :
  run s evs = Some s' →
  isDatabaseInitialized (mem s) = true →
  isDatabaseInitialized (mem s') = true.
Proof.
  revert s. induction evs as [|e evs IH]; intros s; simpl.
  - by intros [= <-].
  - destruct (step s e) as [s1|] eqn:Hstep; [|discriminate]. simpl.
    intros Hrun Hready. eapply IH; [done|]. by eapply step_keeps_ready.
Qed.

(** A second load, started although readiness is published, hits a stream
    error: the flag [isInitializing] is cleared, readiness is not. *)
Lemma readiness_is_monotone_witness :
  let f := csv_of ["a"] [["1"]] in
  let s := {| mem := {| isDatabaseInitialized := true; isInitializing := true;
                        db := ∅; orders_csv := Some f; lastLoad := Some (["a"], []) |};
              tasks := [HeaderPass ApiInit f] |} in
  ∃ s', run s [Wake 0 (StreamError "EIO")] = Some s'
        ∧ isInitializing (mem s') = false
        ∧ isDatabaseInitialized (mem s') = true.
Proof.
  intros f s. eexists. split; [vm_compute; reflexivity|].
  split; [reflexivity|].
  apply (readiness_is_monotone s [Wake 0 (StreamError "EIO")]);
    vm_compute; reflexivity.
Defined.

(** * At most one load at a time *)

Lemma run_app s evs1 evs2 :
  run s (evs1 ++ evs2) = run s evs1 ≫= λ s1, run s1 evs2.
Proof.
  revert s. induction evs1 as [|e evs1 IH]; intros s; simpl; [done|].
  destruct (step s e); simpl; [apply IH|done].
Qed.

Lemma arrive_init_claims σ f :
  isInitializing σ = false → isDatabaseInitialized σ = false →
  orders_csv σ = Some f →
  arrive init_request σ = Some (set_isInitializing true σ, HeaderPass ApiInit f).
Proof.
  intros Hflag Hready Hcsv.
  unfold arrive, checkDatabaseReady, route, api_init, loadCSVData, start_load.
  simpl. by rewrite Hready, Hflag, Hcsv.
Qed.

Lemma arrive_init_polls σ :
  isInitializing σ = true → is_Some (orders_csv σ) →
  arrive init_request σ = Some (σ, Polling ApiInit).
Proof.
  intros Hflag [f Hcsv].
  unfold arrive, checkDatabaseReady, route, api_init, loadCSVData.
  simpl. rewrite Hflag, Hcsv, andb_false_r. done.
Qed.

(** Requests that find the flag set only queue up behind the running load. *)
Lemma run_polls n : ∀ s,
  isInitializing (mem s) = true → is_Some (orders_csv (mem s)) →
  run s (replicate n (Arrive init_request))
  = Some {| mem := mem s; tasks := tasks s ++ replicate n (Polling ApiInit) |}.
Proof.
  induction n as [|n IH]; intros s Hflag Hcsv; simpl.
  - rewrite app_nil_r. by destruct s.
  - rewrite arrive_init_polls by done. simpl.
    rewrite IH by done. simpl. by rewrite <- app_assoc.
Qed.

(** C1: in every state the server can reach at most one task is loading, and
    one is loading exactly while [isInitializing] is set.  When a burst of
    [/api/init] calls meets the state NotStarted, the first call sets the
    flag and starts the load, every later call of the burst ends up polling,
    and a polling caller whose timer fires while the flag is set goes back
    to sleep without starting anything. *)
Theorem one_load_at_a_time s :
  reachable s →
  length (loaders s) ≤ 1
  ∧ (isInitializing (mem s) = true ↔ length (loaders s) = 1)
  ∧ (∀ f n,
       isInitializing (mem s) = false → isDatabaseInitialized (mem s) = false →
       orders_csv (mem s) = Some f →
       run s (replicate (S n) (Arrive init_request))
       = Some {| mem := set_isInitializing true (mem s);
                 tasks := tasks s ++ HeaderPass ApiInit f
                                       :: replicate n (Polling ApiInit) |})
  ∧ (∀ t k,
       isInitializing (mem s) = true → tasks s !! t = Some (Polling k) →
       step s (Wake t Timeout) = Some s).
Proof.
  intros Hreach. pose proof (reachable_invariant s Hreach) as Hinv.
  pose proof (inv_loader _ Hinv) as HL.
  split_and!.
  - destruct (isInitializing (mem s)).
    + destruct HL as (p & -> & _). simpl. lia.
    + rewrite HL. simpl. lia.
  - destruct (isInitializing (mem s)).
    + destruct HL as (p & -> & _). done.
    + rewrite HL. done.
  - intros f n Hflag Hready Hcsv. simpl.
    rewrite (arrive_init_claims _ f) by done. simpl.
    rewrite run_polls by (simpl; eauto). simpl.
    by rewrite <- app_assoc.
  - intros t k Hflag Ht. simpl. rewrite Ht. simpl.
    unfold resume. simpl. rewrite Hflag. simpl.
    rewrite list_insert_id by done. by destruct s.
Qed.

Lemma one_load_at_a_time_witness :
  let f := csv_of ["a"; "b"] [["1"; "x"]; ["2"; "y"]] in
  run {| mem := fresh (Some f); tasks := [] |} (replicate 3 (Arrive init_request))
  = Some {| mem := set_isInitializing true (fresh (Some f));
            tasks := [HeaderPass ApiInit f; Polling ApiInit; Polling ApiInit] |}.
Proof.
  intros f.
  assert (Hreach : reachable {| mem := fresh (Some f); tasks := [] |})
    by (exists None, [FsWrite (Some f)]; reflexivity).
  destruct (one_load_at_a_time _ Hreach) as (_ & _ & Hburst & _).
  apply (Hburst f 2); reflexivity.
Defined.

(** * The request gate *)

Lemma gate_closed req σ :
  req_path req ≠ "/api/init" → req_path req ≠ "/health" →
  isDatabaseInitialized σ = false →
  checkDatabaseReady req σ
  = Some (Response 503
            (Failure "Database not initialized. Please call /api/init endpoint first.")).
Proof.
  intros Hinit Hhealth Hready. unfold checkDatabaseReady.
  destruct (String.eqb_spec (req_path req) "/api/init"); [done|].
  destruct (String.eqb_spec (req_path req) "/health"); [done|].
  by rewrite Hready.
Qed.

(** C3: while readiness is not published, and in particular as long as no
    load has completed, a request for any path other than [/api/init] and
    [/health] is answered by the gate with status 503 and [success: false].
    No handler runs: the shared state, the database in it, is left as it
    was and the request waits for no database callback. *)
Theorem gate_blocks_until_ready s req :
  reachable s →
  req_path req ≠ "/api/init" → req_path req ≠ "/health" →
  isDatabaseInitialized (mem s) = false ∨ lastLoad (mem s) = None →
  let refusal :=
    Response 503
      (Failure "Database not initialized. Please call /api/init endpoint first.") in
  checkDatabaseReady req (mem s) = Some refusal
  ∧ step s (Arrive req) = Some {| mem := mem s; tasks := tasks s ++ [Finished refusal] |}
  ∧ success (Failure "Database not initialized. Please call /api/init endpoint first.")
    = Some false.
Proof.
  intros Hreach Hinit Hhealth Hnot refusal.
  assert (isDatabaseInitialized (mem s) = false) as Hready.
  { destruct Hnot as [|Hnone]; [done|].
    pose proof (inv_published _ (reachable_invariant s Hreach)) as Hpub.
    destruct (isDatabaseInitialized (mem s)); [|done].
    destruct (proj1 Hpub eq_refl) as [? Hsome]. congruence. }
  pose proof (gate_closed req (mem s) Hinit Hhealth Hready) as Hgate.
  split_and!; [done| |done].
  simpl. unfold arrive. by rewrite Hgate.
Qed.

Lemma gate_blocks_until_ready_witness :
  step (boot None) (Arrive (query_request (SelectAll "orders")))
  = Some {| mem := fresh None;
            tasks := [Finished (Response 503
                        (Failure "Database not initialized. Please call /api/init endpoint first."))] |}.
Proof.
  assert (Hreach : reachable (boot None)) by (exists None, []; reflexivity).
  apply (gate_blocks_until_ready (boot None) (query_request (SelectAll "orders")) Hreach).
  - vm_compute. discriminate.
  - vm_compute. discriminate.
  - left. reflexivity.
Defined.

(** * A failed load *)

(** A failing step of a load clears [isInitializing] and nothing else, in
    any state. *)
Lemma failure_keeps_readiness p sg σ σ' k message :
  is_loader p = true →
  resume p sg σ = Some (σ', Finished (thrown k message)) →
  isInitializing σ' = false
  ∧ isDatabaseInitialized σ' = isDatabaseInitialized σ
  ∧ db σ' = db σ.
Proof.
  intros Hp Hres.
  destruct (resume_cases _ _ _ _ _ Hres)
    as [Hq|? ? ? [=]|? [=]|? ? _ _ Hready Hflag Hdb|k' ? ? ? ? Hret]; try done.
  - congruence.
  - destruct k, k'; discriminate.
Qed.

Lemma step_wake s t sg s1 p :
  tasks s !! t = Some p → step s (Wake t sg) = Some s1 →
  ∃ σ' p', resume p sg (mem s) = Some (σ', p')
           ∧ s1 = {| mem := σ'; tasks := <[t := p']> (tasks s) |}.
Proof.
  intros Ht. simpl. rewrite Ht. simpl.
  destruct (resume p sg (mem s)) as [[σ' p']|]; [|discriminate].
  intros [= <-]. eauto.
Qed.

Lemma returned_not_failure k tableName n schema :
  is_failure (returned k tableName n schema) = false.
Proof. by destruct k. Qed.

Lemma polling_retries σ k f :
  isInitializing σ = false → isDatabaseInitialized σ = false →
  orders_csv σ = Some f →
  resume (Polling k) Timeout σ = Some (set_isInitializing true σ, HeaderPass k f).
Proof.
  intros Hflag Hready Hcsv. unfold resume. simpl.
  unfold start_load. by rewrite Hflag, Hready, Hcsv.
Qed.

(** X18: when a step of a loading task ends that load with an error the
    loader observes (a missing or empty header, a rejected [DROP] or
    [CREATE TABLE], an ['error'] event of the parser stream in either
    pass), both flags are clear afterwards.  The error is delivered to the
    task whose load it was and to no other: every other task, the polling
    ones included, is left where it was.  The next [/api/init] request, or
    the next polling caller whose timer fires, then starts a load of its
    own. *)
Theorem failed_load_resets_state s t sg s' p r :
  reachable s →
  tasks s !! t = Some p → is_loader p = true →
  step s (Wake t sg) = Some s' →
  tasks s' !! t = Some (Finished r) → is_failure r = true →
  isInitializing (mem s') = false
  ∧ isDatabaseInitialized (mem s') = false
  ∧ tasks s' = <[t := Finished r]> (tasks s)
  ∧ (∀ f, orders_csv (mem s') = Some f →
          step s' (Arrive init_request)
          = Some {| mem := set_isInitializing true (mem s');
                    tasks := tasks s' ++ [HeaderPass ApiInit f] |})
  ∧ (∀ f j k, orders_csv (mem s') = Some f → tasks s' !! j = Some (Polling k) →
              step s' (Wake j Timeout)
              = Some {| mem := set_isInitializing true (mem s');
                        tasks := <[j := HeaderPass k f]> (tasks s') |}).
Proof.
  intros Hreach Ht Hp Hstep Ht' Hr.
  pose proof (reachable_invariant s Hreach) as Hinv.
  destruct s as [σ l]. simpl in *. rewrite Ht in Hstep. simpl in Hstep.
  destruct (resume p sg σ) as [[σ1 p']|] eqn:Hres; [|discriminate].
  injection Hstep as <-. simpl in *.
  rewrite list_lookup_insert_eq in Ht' by (by eapply lookup_lt_Some).
  injection Ht' as ->.
  destruct (task_split l t p (Finished r) Ht) as (front & back & -> & Hins).
  destruct (loading_holds_flag _ _ _ _ Hinv Hp) as (Hflag & Hready & _).
  assert (isInitializing σ1 = false ∧ isDatabaseInitialized σ1 = false) as [Hf1 Hr1].
  { destruct (resume_cases _ _ _ _ _ Hres)
      as [? Hq|? ? ? [=]|? [=]|? ? ? _ Hready' Hflag'|? ? ? ? ? [= ->]].
    - congruence.
    - split; congruence.
    - by rewrite returned_not_failure in Hr. }
  split_and!; try done.
  - intros f Hcsv. by rewrite (arrive_init_claims σ1 f).
  - intros f j k Hcsv Hj. rewrite Hj. simpl.
    by rewrite (polling_retries σ1 k f).
Qed.

(** The start-up load of a file whose parser stream breaks during the
    header pass, with one [/api/init] caller polling behind it. *)
Lemma failed_load_resets_state_witness :
  let f := csv_of ["a"] [["1"]] in
  ∃ s s',
    run (boot (Some f)) [Arrive init_request] = Some s
    ∧ step s (Wake 0 (StreamError "EIO")) = Some s'
    ∧ tasks s' = [Finished (AutoError "EIO"); Polling ApiInit]
    ∧ isInitializing (mem s') = false
    ∧ isDatabaseInitialized (mem s') = false.
Proof.
  intros f. eexists. eexists.
  split; [vm_compute; reflexivity|].
  split; [vm_compute; reflexivity|].
  split; [reflexivity|].
  match goal with
  | |- isInitializing (mem ?s') = false ∧ _ =>
      destruct (failed_load_resets_state
                  {| mem := set_isInitializing true (fresh (Some f));
                     tasks := [HeaderPass AutoInit f; Polling ApiInit] |}
                  0 (StreamError "EIO") s' (HeaderPass AutoInit f) (AutoError "EIO"))
        as (H1 & H2 & _)
  end.
  - exists (Some f), [Arrive init_request]. vm_compute. reflexivity.
  - reflexivity.
  - reflexivity.
  - vm_compute. reflexivity.
  - reflexivity.
  - reflexivity.
  - split; [exact H1|exact H2].
Defined.

(** * Single steps of the event loop *)

Lemma wake_last l x y σ σ' sg :
  resume x sg σ = Some (σ', y) →
  step {| mem := σ; tasks := l ++ [x] |} (Wake (length l) sg)
  = Some {| mem := σ'; tasks := l ++ [y] |}.
Proof.
  intros Hres. simpl. rewrite list_lookup_middle by done. simpl.
  rewrite Hres. simpl. rewrite insert_app_r_alt by done.
  by rewrite Nat.sub_diag.
Qed.

Lemma arrive_init σ : arrive init_request σ = api_init σ.
Proof. done. Qed.

Lemma step_arrive req σ l σ' p :
  arrive req σ = Some (σ', p) →
  step {| mem := σ; tasks := l |} (Arrive req) = Some {| mem := σ'; tasks := l ++ [p] |}.
Proof. intros Harr. simpl. by rewrite Harr. Qed.

(** * [/api/init] without the file *)

(** As stated, C6 fails: the fast path is tried before the file is looked
    for.  Once a load has completed and the file has been removed,
    [/api/init] starts the two reads of the fast path instead of answering
    404. *)
Lemma init_without_file_counterexample :
  ¬ (∀ s, reachable s → orders_csv (mem s) = None →
          ∃ message,
            step s (Arrive init_request)
            = Some {| mem := mem s;
                      tasks := tasks s ++ [Finished (Response 404 (Failure message))] |}).
Proof.
  intros Hclaim.
  pose (f := csv_of ["a"; "b"] [["1"; "x"]; ["2"; "y"]]).
  pose (evs := [Wake 0 StreamEnd; Wake 0 DbCallback; Wake 0 DbCallback;
                Wake 0 StreamData; Wake 0 StreamData; Wake 0 StreamEnd;
                FsWrite None]).
  assert (∃ s, run (boot (Some f)) evs = Some s
               ∧ orders_csv (mem s) = None
               ∧ ∃ r, (tasks <$> step s (Arrive init_request))
                      = Some [Finished AutoComplete; FastPragma r])
    as (s & Hrun & Hcsv & r & Hfast).
  { eexists. split; [vm_compute; reflexivity|]. split; [vm_compute; reflexivity|].
    eexists. vm_compute. reflexivity. }
  destruct (Hclaim s) as (message & Hstep); [by exists (Some f), evs|done|].
  rewrite Hstep in Hfast. simpl in Hfast.
  assert (length (tasks s ++ [Finished (Response 404 (Failure message))]) = 2) as Hlen
    by (injection Hfast as ->; done).
  rewrite List.length_app in Hlen. simpl in Hlen.
  destruct (tasks s) as [|p [|? ?]]; simpl in Hlen; try lia.
  simpl in Hfast. congruence.
Qed.

(** C6, amended: when [/api/init] is called while readiness is not published
    (or while the flag [isInitializing] is set) and the file is not there,
    the answer is 404 with [success: false] and a message, and nothing else
    happens. *)
Theorem init_without_file s :
  orders_csv (mem s) = None →
  isDatabaseInitialized (mem s) = false ∨ isInitializing (mem s) = true →
  let notFound := Failure "CSV file not found. Please upload the file first." in
  step s (Arrive init_request)
  = Some {| mem := mem s; tasks := tasks s ++ [Finished (Response 404 notFound)] |}
  ∧ success notFound = Some false.
Proof.
  intros Hcsv Hnot notFound. split; [|done].
  destruct s as [σ l]. cbn [mem tasks] in *.
  apply step_arrive. rewrite arrive_init. unfold api_init. rewrite Hcsv.
  destruct Hnot as [->| ->]; [done|]. by rewrite andb_false_r.
Qed.

Lemma init_without_file_witness :
  step (boot None) (Arrive init_request)
  = Some {| mem := fresh None;
            tasks := [Finished (Response 404
                        (Failure "CSV file not found. Please upload the file first."))] |}.
Proof.
  apply (init_without_file (boot None)).
  - reflexivity.
  - left. reflexivity.
Defined.

(** * Round trip *)


(** * Loads that fail, step by step *)

(** Three ways for a load to fail, each from the step after start-up: a file
    without a header row, a header with a repeated column (rejected by
    [CREATE TABLE]) and an error of the parser stream in the middle of the
    insertion pass.  Each leaves both flags clear. *)
Example failure_without_header :
  (mem <$> run (boot (Some {| csv_headers := None; csv_records := [] |}))
             [Wake 0 StreamEnd])
  = Some (fresh (Some {| csv_headers := None; csv_records := [] |})).
Proof. vm_compute. reflexivity. Qed.

Example failure_at_create_table :
  let f := csv_of ["a"; "a"] [["1"; "2"]] in
  (λ s, (isDatabaseInitialized (mem s), isInitializing (mem s), tasks s))
    <$> run (boot (Some f)) [Wake 0 StreamEnd; Wake 0 DbCallback; Wake 0 DbCallback]
  = Some (false, false,
          [Finished (AutoError "SQLITE_ERROR: invalid column definitions")]).
Proof. vm_compute. reflexivity. Qed.

Example failure_during_insertion :
  let f := csv_of ["a"] [["1"]; ["2"]] in
  (λ s, (isDatabaseInitialized (mem s), isInitializing (mem s), tasks s))
    <$> run (boot (Some f))
          [Wake 0 StreamEnd; Wake 0 DbCallback; Wake 0 DbCallback;
           Wake 0 StreamData; Wake 0 (StreamError "EIO")]
  = Some (false, false, [Finished (AutoError "EIO")]).
Proof. vm_compute. reflexivity. Qed.

(** * The insertion pass for any number of records *)

Lemma chunk_sizes_small n : 0 < n → n < batchSize → chunk_sizes n = [n].
Proof.
  intros Hpos Hlt. unfold chunk_sizes.
  rewrite Nat.div_small, Nat.mod_small by done.
  destruct (Nat.eqb_spec n 0); [lia|done].
Qed.

Lemma chunk_sizes_zero : chunk_sizes 0 = [].
Proof.
  unfold chunk_sizes.
  rewrite Nat.div_small, Nat.mod_small by (unfold batchSize; lia). done.
Qed.

Lemma chunk_sizes_step n :
  batchSize ≤ n → chunk_sizes n = batchSize :: chunk_sizes (n - batchSize).
Proof.
  intros Hge. unfold chunk_sizes.
  pose proof (Nat.div_add (n - batchSize) 1 batchSize) as Hdiv.
  pose proof (Nat.Div0.mod_add (n - batchSize) 1 batchSize) as Hmod.
  replace (n - batchSize + 1 * batchSize) with n in Hdiv, Hmod by lia.
  rewrite Hdiv, Hmod, Nat.add_1_r by (unfold batchSize; lia). done.
Qed.

Lemma runs_of_app tr1 tr2 : runs_of (tr1 ++ tr2) = runs_of tr1 ++ runs_of tr2.
Proof.
  induction tr1 as [|[q|params|] tr1 IH]; simpl; [done|done| |done].
  by rewrite IH.
Qed.

Lemma runs_of_batch tableName headers records :
  runs_of (batch_calls tableName headers records) = map (values headers) records.
Proof.
  unfold batch_calls. simpl. rewrite runs_of_app. simpl. rewrite app_nil_r.
  induction records as [|r records IH]; simpl; [done|by rewrite IH].
Qed.

Lemma prepares_of_batch tableName headers records :
  List.filter is_prepare (batch_calls tableName headers records)
  = [CallPrepare (InsertValues tableName (length headers))].
Proof.
  unfold batch_calls. simpl. f_equal. rewrite List.filter_app. simpl.
  rewrite app_nil_r.
  induction records as [|r records IH]; simpl; done.
Qed.

Lemma finalizes_of_batch tableName headers records :
  List.filter is_finalize (batch_calls tableName headers records) = [CallFinalize].
Proof.
  unfold batch_calls. simpl. rewrite List.filter_app. simpl.
  induction records as [|r records IH]; simpl; done.
Qed.

(** What a pass that starts with an empty buffer appends to the trace. *)
Lemma recording_pass tableName headers n : ∀ (records : list object) c (tr : list call),
  length records = n → batch c = [] →
  ∃ suffix,
    on_end tableName headers
      (foldl (feed tableName headers) (c, tr) records).1
      (foldl (feed tableName headers) (c, tr) records).2
    = (totalRows c + n, tr ++ suffix)
    ∧ batch_sizes suffix = chunk_sizes n
    ∧ runs_of suffix = map (values headers) records
    ∧ length (List.filter is_prepare suffix) = length (chunk_sizes n)
    ∧ length (List.filter is_finalize suffix) = length (chunk_sizes n).
Proof.
  induction n as [n IH] using lt_wf_ind. intros records c tr Hlen Hbatch.
  destruct (Nat.lt_ge_cases n batchSize) as [Hlt|Hge].
  - rewrite foldl_feed_buffer by (rewrite Hbatch; simpl; lia).
    rewrite Hbatch. cbn [app fst snd]. unfold on_end. cbn [batch totalRows].
    destruct (Nat.ltb_spec 0 (length records)) as [Hpos|Hzero].
    + exists (batch_calls tableName headers records).
      rewrite recording_insertBatch, Hlen.
      split_and!; [done| | | |].
      * unfold batch_sizes.
        rewrite <- (app_nil_r (batch_calls _ _ _)), batch_sizes_batch.
        rewrite chunk_sizes_small by lia. by rewrite Hlen.
      * apply runs_of_batch.
      * rewrite prepares_of_batch, chunk_sizes_small by lia. done.
      * rewrite finalizes_of_batch, chunk_sizes_small by lia. done.
    + assert (n = 0) as -> by lia.
      destruct records; [|discriminate].
      exists []. rewrite app_nil_r, chunk_sizes_zero. split_and!; try done.
      f_equal. lia.
  - pose proof (take_drop batchSize records) as Hsplit.
    assert (length (take batchSize records) = batchSize) as H1
      by (rewrite length_take; lia).
    assert (length (drop batchSize records) = n - batchSize) as H2
      by (rewrite length_drop; lia).
    remember (take batchSize records) as b1 eqn:Eb1.
    remember (drop batchSize records) as r2 eqn:Er2.
    clear Eb1 Er2. subst records.
    assert (b1 ≠ []) as Hne
      by (intros E; rewrite E in H1; unfold batchSize in H1; discriminate).
    rewrite foldl_app.
    rewrite (foldl_feed_fill tableName headers b1)
      by (done || rewrite Hbatch; simpl; lia).
    rewrite Hbatch. cbn [app]. rewrite recording_insertBatch.
    destruct (IH (n - batchSize) ltac:(unfold batchSize in *; lia) r2
                {| batch := []; totalRows := totalRows c + batchSize |}
                (tr ++ batch_calls tableName headers b1))
      as (suffix & Hend & Hsizes & Hruns & Hprep & Hfin); [done|done|].
    exists (batch_calls tableName headers b1 ++ suffix).
    rewrite Hend. cbn [totalRows]. rewrite chunk_sizes_step by done.
    split_and!.
    + rewrite <- app_assoc. f_equal. lia.
    + unfold batch_sizes in *. rewrite batch_sizes_batch, Hsizes, H1. done.
    + by rewrite runs_of_app, runs_of_batch, Hruns, <- List.map_app.
    + rewrite List.filter_app, prepares_of_batch. simpl. by rewrite Hprep.
    + rewrite List.filter_app, finalizes_of_batch. simpl. by rewrite Hfin.
Qed.

(** X1: for any number of records the loader sends full batches of 1000 and
    then the remainder, if there is one, as a last batch: no batch for an
    empty file, and no empty batch after an exact multiple of 1000.  The
    reported count is the number of records. *)
Theorem batches_for_any_file tableName headers (records : list object) :
  batch_sizes (insert_pass tableName headers records ([] : list call)).2
  = chunk_sizes (length records)
  ∧ (insert_pass tableName headers records ([] : list call)).1 = length records.
Proof.
  destruct (recording_pass tableName headers (length records) records
              {| batch := []; totalRows := 0 |} [] eq_refl eq_refl)
    as (suffix & Hend & Hsizes & _).
  unfold insert_pass. rewrite Hend. simpl. done.
Qed.

(** X2: across all batches every record is bound to exactly one [run] call,
    in file order, with one parameter per header; and every statement that
    is prepared is finalized. *)
Theorem every_record_run_once tableName headers (records : list object) :
  let tr := (insert_pass tableName headers records ([] : list call)).2 in
  runs_of tr = map (values headers) records
  ∧ Forall (λ params, length params = length headers) (runs_of tr)
  ∧ length (List.filter is_prepare tr) = length (List.filter is_finalize tr).
Proof.
  destruct (recording_pass tableName headers (length records) records
              {| batch := []; totalRows := 0 |} [] eq_refl eq_refl)
    as (suffix & Hend & _ & Hruns & Hprep & Hfin).
  unfold insert_pass. rewrite Hend. cbn [snd app].
  split_and!; [done| |congruence].
  rewrite Hruns. apply Forall_forall. intros params Hin.
  apply list_elem_of_In, List.in_map_iff in Hin as (r & <- & _).
  apply length_values.
Qed.

(** * Runs of the event loop *)

Lemma run_cons s e evs : run s (e :: evs) = step s e ≫= λ s1, run s1 evs.
Proof. done. Qed.

Lemma wake_at l t x y σ σ' sg :
  l !! t = Some x → resume x sg σ = Some (σ', y) →
  step {| mem := σ; tasks := l |} (Wake t sg)
  = Some {| mem := σ'; tasks := <[t := y]> l |}.
Proof. intros Ht Hres. simpl. rewrite Ht. simpl. by rewrite Hres. Qed.

(** * Requests on a ready server *)

Lemma arrive_query q σ :
  isDatabaseInitialized σ = true →
  arrive (query_request q) σ
  = Some (set_db (db_all q (db σ)).1 σ, Querying (db_all q (db σ)).2).
Proof.
  intros Hready. unfold arrive, checkDatabaseReady. cbn. rewrite Hready. cbn.
  unfold api_query. cbn. by rewrite runQuery_spec.
Qed.

Lemma resume_querying r σ :
  resume (Querying r) DbCallback σ = Some (σ, Finished (query_answer r)).
Proof. by destruct r. Qed.

Lemma query_runs q σ l :
  isDatabaseInitialized σ = true →
  run {| mem := σ; tasks := l |}
    [Arrive (query_request q); Wake (length l) DbCallback]
  = Some {| mem := set_db (db_all q (db σ)).1 σ;
            tasks := l ++ [Finished (query_answer (db_all q (db σ)).2)] |}.
Proof.
  intros Hready. rewrite run_cons.
  rewrite (step_arrive _ _ _ _ _ (arrive_query q σ Hready)).
  cbn [mbind option_bind]. rewrite run_cons.
  rewrite (wake_last _ _ _ _ _ _ (resume_querying _ _)). done.
Qed.

(** * The table when readiness is published *)

Section EndHandlerFacts.
Context {Db Stmt : Type} `{!Statements Db Stmt}.

(** Whatever the driver, the handler publishes readiness and reports the
    number of records counted and buffered. *)
Lemma end_handler_spec tableName headers c (d : Db) :
  end_handler tableName headers c d
  = {| end_isDatabaseInitialized := true; end_isInitializing := false;
       end_totalRows := totalRows c + length (batch c);
       end_db := (on_end tableName headers c d).2 |}.
Proof.
  unfold end_handler. rewrite <- (on_end_count tableName headers c d).
  by destruct (on_end tableName headers c d).
Qed.
End EndHandlerFacts.

(** The step of the event loop that ends the insertion pass is this
    handler. *)
Lemma resume_end_handler k headers seen c σ :
  let r := end_handler orders headers c (db σ) in
  resume (Inserting k headers seen [] c) StreamEnd σ
  = Some ({| isDatabaseInitialized := end_isDatabaseInitialized r;
             isInitializing := end_isInitializing r;
             db := end_db r; orders_csv := orders_csv σ;
             lastLoad := Some (headers, seen) |},
          Finished (returned k orders (JNum (end_totalRows r)) (inferSchema headers))).
Proof.
  intros r. unfold r. rewrite end_handler_spec.
  unfold resume. cbn [is_handler resume_load].
  rewrite on_end_spec. done.
Qed.

(** What one batch adds to the queue. *)
Lemma deferring_runs headers (records : list object) (d : queued) :
  foldl (λ d' record, stmt_run tt (values headers record) d') d records
  = {| store := store d;
       pending := pending d ++ map (λ record, CallRun (values headers record)) records |}.
Proof.
  revert d. induction records as [|r records IH]; intros d; cbn [foldl map].
  - rewrite app_nil_r. by destruct d.
  - rewrite IH. cbn [stmt_run deferring store pending]. by rewrite <- app_assoc.
Qed.

Lemma deferring_insertBatch tableName headers records (d : queued) :
  insertBatch tableName headers records d
  = {| store := store d; pending := pending d ++ batch_calls tableName headers records |}.
Proof.
  unfold insertBatch, batch_calls. cbn [db_prepare stmt_finalize deferring].
  rewrite deferring_runs. cbn [store pending].
  rewrite List.length_map, <- !app_assoc. done.
Qed.

(** The ['end'] handler against the queue: the calls for what is buffered
    are appended, no table changes, readiness is published. *)
Lemma deferring_end_handler tableName headers c (d : queued) :
  0 < length (batch c) →
  end_handler tableName headers c d
  = {| end_isDatabaseInitialized := true; end_isInitializing := false;
       end_totalRows := totalRows c + length (batch c);
       end_db := {| store := store d;
                    pending := pending d ++ batch_calls tableName headers (batch c) |} |}.
Proof.
  intros Hpos. rewrite end_handler_spec. f_equal. unfold on_end.
  destruct (Nat.ltb_spec 0 (length (batch c))); [|lia].
  cbn [snd]. apply deferring_insertBatch.
Qed.

(** A file that fits into one batch: every call of the pass is made in the
    ['end'] handler. *)
Lemma deferring_end_of_pass tableName headers (records : list object) (d : queued) :
  0 < length records → length records < batchSize →
  end_of_pass tableName headers records d
  = {| end_isDatabaseInitialized := true; end_isInitializing := false;
       end_totalRows := length records;
       end_db := {| store := store d;
                    pending := pending d ++ batch_calls tableName headers records |} |}.
Proof.
  intros Hpos Hlt. unfold end_of_pass.
  rewrite foldl_feed_buffer by (cbn [batch length]; lia).
  cbn [fst snd batch app totalRows].
  rewrite deferring_end_handler by done. done.
Qed.

(** The fast path of [/api/init]: two reads, no flag touched, no stream
    opened, and the answer describes the table as the engine holds it. *)
Lemma fast_path_runs σ l tb :
  isDatabaseInitialized σ = true → isInitializing σ = false →
  db σ !! orders = Some tb →
  run {| mem := σ; tasks := l |}
    [Arrive init_request; Wake (length l) DbCallback; Wake (length l) DbCallback]
  = Some {| mem := σ;
            tasks := l ++ [Finished (Response 200
                                   (InitAlready (JNum (length (rows tb)))
                                      (map name_type (table_info tb))))] |}.
Proof.
  intros Hready Hflag Hdb. rewrite run_cons.
  rewrite (step_arrive init_request σ l σ (FastPragma (Resolved (table_info tb)))).
  2:{ rewrite arrive_init. unfold api_init. rewrite Hready, Hflag. cbn [andb negb].
      rewrite runQuery_spec, db_all_read_only, set_db_same by done.
      cbn [db_all snd]. by rewrite Hdb. }
  cbn [mbind option_bind]. rewrite run_cons.
  rewrite (wake_last l _ (FastCount (table_info tb)
                            (Resolved [[("count", JNum (length (rows tb)))]])) σ σ).
  2:{ unfold resume. cbn [is_handler resume_handler].
      rewrite runQuery_spec, db_all_read_only, set_db_same by done.
      cbn [db_all snd]. by rewrite Hdb. }
  cbn [mbind option_bind]. rewrite run_cons.
  rewrite (wake_last l _ (Finished (Response 200
                                      (InitAlready (JNum (length (rows tb)))
                                         (map name_type (table_info tb))))) σ σ) by done.
  done.
Qed.



(** C2: readiness is published before the rows of the load are in the
    table.  The ['end'] handler hands the buffered records to the driver
    with calls that have no callback, and assigns the flag in the same
    callback: at that moment the calls for the last batch are in the queue
    and no table has changed.  From then on the gate lets every request
    through, and a reader is answered from whatever the engine holds when
    its statement is carried out: before the engine has got to the queue,
    its count is the one from before the last batch. *)
Theorem readiness_published_before_inserts headers seen c (d : queued)
    (σ : shared) (tb : table) :
  0 < length (batch c) →
  store d !! orders = Some tb →
  let r := end_handler orders headers c d in
  let σ' := after_end r headers seen σ in
  let count t :=
    Finished (Response 200 (QueryData [[("count", JNum (length (rows t)))]])) in
  end_totalRows r = totalRows c + length (batch c)
  ∧ store (end_db r) = store d
  ∧ pending (end_db r) = pending d ++ batch_calls orders headers (batch c)
  ∧ isDatabaseInitialized σ' = true
  ∧ (∀ req, checkDatabaseReady req σ' = None)
  ∧ run {| mem := σ'; tasks := [] |}
      [Arrive (query_request (SelectCount orders)); Wake 0 DbCallback]
    = Some {| mem := σ'; tasks := [count tb] |}
  ∧ (∀ d' tb',
       d' !! orders = Some tb' →
       run {| mem := set_db d' σ'; tasks := [] |}
         [Arrive (query_request (SelectCount orders)); Wake 0 DbCallback]
       = Some {| mem := set_db d' σ'; tasks := [count tb'] |}).
Proof.
  intros Hpos Hdb r σ' count. unfold σ', r, count.
  rewrite deferring_end_handler by done.
  unfold after_end. cbn [end_isDatabaseInitialized end_isInitializing end_totalRows
                           end_db store pending].
  split_and!; try done.
  - intros req. unfold checkDatabaseReady. cbn [isDatabaseInitialized negb].
    by destruct (_ || _).
  - rewrite (query_runs (SelectCount orders) _ []) by done.
    cbn [db db_all]. rewrite Hdb. done.
  - intros d' tb' Hdb'.
    rewrite (query_runs (SelectCount orders) _ []) by done.
    cbn [db set_db db_all]. rewrite Hdb'. done.
Qed.

(** A load of the two-row file of the round trip, up to its ['end'] event;
    then the ['end'] handler, with both records buffered, against the
    queue.  The load reports two rows, readiness is published, and a count
    requested next is answered with 0. *)
Lemma readiness_published_before_inserts_witness :
  let f := csv_of ["a"; "b"] [["1"; "x"]; ["2"; "y"]] in
  let c := {| batch := csv_records f; totalRows := 0 |} in
  ∃ s,
    run (boot None)
      [FsWrite (Some f); Arrive init_request;
       Wake 0 StreamEnd; Wake 0 DbCallback; Wake 0 DbCallback;
       Wake 0 StreamData; Wake 0 StreamData] = Some s
    ∧ tasks s = [Inserting ApiInit ["a"; "b"] (csv_records f) [] c]
    ∧ let r := end_handler orders ["a"; "b"] c {| store := db (mem s); pending := [] |} in
      let σ' := after_end r ["a"; "b"] (csv_records f) (mem s) in
      end_totalRows r = 2
      ∧ isDatabaseInitialized σ' = true
      ∧ (tasks <$> run {| mem := σ'; tasks := [] |}
                     [Arrive (query_request (SelectCount orders)); Wake 0 DbCallback])
        = Some [Finished (Response 200 (QueryData [[("count", JNum 0)]]))].
Proof.
  intros f c. eexists. split; [vm_compute; reflexivity|].
  split; [reflexivity|].
  match goal with
  | |- let r := end_handler _ _ _ ?d in _ =>
      destruct (readiness_published_before_inserts ["a"; "b"] (csv_records f) c d
                  (set_isInitializing true (fresh (Some f)))
                  {| columns := [("a", "TEXT"); ("b", "TEXT")]; rows := [] |})
        as (Hn & _ & _ & Hready & _ & Hrun & _)
  end.
  - cbn. lia.
  - vm_compute. reflexivity.
  - intros r σ'. split; [exact Hn|]. split; [exact Hready|].
    exact (f_equal (fmap tasks) Hrun).
Defined.

(** C5: [/api/init] calls in a row after a load take the fast path, but
    they need not report the row count of the load, nor the same count
    twice.  For a file that fits into one batch, the call that loads is
    answered with the number of records while every insert is still in the
    queue.  A call that follows reads [COUNT] from the table as the engine
    holds it at that time: as [CREATE TABLE] left it if the engine has not
    got to the queue, which gives 0 rows; and whenever the table holds
    fewer rows than the file has, a count that is not the one the load
    reported. *)
Theorem fast_path_reads_before_inserts headers (records : list object)
    (σ : shared) cols :
  0 < length records → length records < batchSize →
  db σ !! orders = Some {| columns := cols; rows := [] |} →
  let r := end_of_pass orders headers records {| store := db σ; pending := [] |} in
  let σ' := after_end r headers records σ in
  let already t :=
    Finished (Response 200 (InitAlready (JNum (length (rows t)))
                              (map name_type (table_info t)))) in
  returned ApiInit orders (JNum (end_totalRows r)) (inferSchema headers)
  = Response 200 (InitLoaded (JNum (length records)) orders (inferSchema headers))
  ∧ pending (end_db r) = batch_calls orders headers records
  ∧ run {| mem := σ'; tasks := [] |}
      [Arrive init_request; Wake 0 DbCallback; Wake 0 DbCallback]
    = Some {| mem := σ';
              tasks := [Finished (Response 200
                                    (InitAlready (JNum 0)
                                       (map name_type
                                          (table_info {| columns := cols;
                                                         rows := [] |}))))] |}
  ∧ (∀ d' tb',
       d' !! orders = Some tb' →
       run {| mem := set_db d' σ'; tasks := [] |}
         [Arrive init_request; Wake 0 DbCallback; Wake 0 DbCallback]
       = Some {| mem := set_db d' σ'; tasks := [already tb'] |}
       ∧ (length (rows tb') < length records →
          JNum (length (rows tb')) ≠ JNum (length records))).
Proof.
  intros Hpos Hlt Hdb r σ' already. unfold σ', r, already.
  rewrite deferring_end_of_pass by done.
  unfold after_end. cbn [end_isDatabaseInitialized end_isInitializing end_totalRows
                           end_db store pending app].
  split_and!; try done.
  - by rewrite (fast_path_runs _ [] {| columns := cols; rows := [] |}).
  - intros d' tb' Hdb'. split.
    + by rewrite (fast_path_runs _ [] tb').
    + intros Hless [= Hn]. lia.
Qed.

Lemma fast_path_reads_before_inserts_witness :
  let f := csv_of ["a"; "b"] [["1"; "x"]; ["2"; "y"]] in
  ∃ s,
    run (boot None)
      [FsWrite (Some f); Arrive init_request;
       Wake 0 StreamEnd; Wake 0 DbCallback; Wake 0 DbCallback] = Some s
    ∧ tasks s = [Inserting ApiInit ["a"; "b"] [] (csv_records f)
                   {| batch := []; totalRows := 0 |}]
    ∧ let r := end_of_pass orders ["a"; "b"] (csv_records f)
                 {| store := db (mem s); pending := [] |} in
      let σ' := after_end r ["a"; "b"] (csv_records f) (mem s) in
      returned ApiInit orders (JNum (end_totalRows r)) (inferSchema ["a"; "b"])
      = Response 200 (InitLoaded (JNum 2) orders (inferSchema ["a"; "b"]))
      ∧ (tasks <$> run {| mem := σ'; tasks := [] |}
                     [Arrive init_request; Wake 0 DbCallback; Wake 0 DbCallback])
        = Some [Finished (Response 200 (InitAlready (JNum 0) (inferSchema ["a"; "b"])))].
Proof.
  intros f. eexists. split; [vm_compute; reflexivity|].
  split; [reflexivity|].
  match goal with
  | |- let r := end_of_pass _ _ _ {| store := db (mem ?s); pending := _ |} in _ =>
      destruct (fast_path_reads_before_inserts ["a"; "b"] (csv_records f) (mem s)
                  [("a", "TEXT"); ("b", "TEXT")])
        as (Hfirst & _ & Hrun & _)
  end.
  - cbn. lia.
  - cbn. unfold batchSize. lia.
  - vm_compute. reflexivity.
  - intros r σ'. split; [exact Hfirst|].
    exact (f_equal (fmap tasks) Hrun).
Defined.

(** * Errors of the engine during the insertion pass *)

(** C4: an error of the engine during the insertion pass does not fail the
    load.  A task in the insertion pass ends with an error only on an
    ['error'] event of the parser stream.  [db.prepare], [stmt.run] and
    [stmt.finalize] are called without a callback, so what the engine makes
    of a statement never reaches the [catch] block: whatever the driver,
    the ['end'] handler publishes readiness and the call reports the number
    of records.  So it is for a file whose header is the one field [x,y]
    and that has one row: the table created has two columns, the [INSERT]
    with one placeholder is a statement the engine rejects, and still the
    calls are queued, readiness is published and the load is answered 200
    with one row. *)
Theorem insert_errors_never_fail_a_load :
  (∀ k headers seen rest c sg σ σ' r,
     resume (Inserting k headers seen rest c) sg σ = Some (σ', Finished r) →
     is_failure r = true →
     ∃ message, sg = StreamError message ∧ r = thrown k message)
  ∧ (∀ (Db Stmt : Type) (driver : Statements Db Stmt) tableName headers c (d : Db),
       end_isDatabaseInitialized (end_handler tableName headers c d) = true
       ∧ end_totalRows (end_handler tableName headers c d)
         = totalRows c + length (batch c))
  ∧ (let d := {| store := {[orders := {| columns := [("x", ""); ("y", "TEXT")];
                                         rows := [] |}]};
                 pending := [] |} in
     let r := end_of_pass orders ["x,y"] [[("x,y", JStr "1")]] d in
     (∃ message, (db_all (InsertValues orders 1) (store d)).2 = Rejected message)
     ∧ pending (end_db r)
       = [CallPrepare (InsertValues orders 1); CallRun [JStr "1"]; CallFinalize]
     ∧ store (end_db r) = store d
     ∧ end_isDatabaseInitialized r = true
     ∧ returned ApiInit orders (JNum (end_totalRows r)) (inferSchema ["x,y"])
       = Response 200 (InitLoaded (JNum 1) orders
                         [[("name", JStr "x,y"); ("type", JStr "TEXT")]])).
Proof.
  split_and!.
  - intros k headers seen rest c sg σ σ' r Hres Hfail.
    unfold resume in Hres. cbn [is_handler resume_load] in Hres.
    destruct rest as [|row rest], sg; try discriminate.
    + destruct (on_end orders headers c (db σ)) as [n d'].
      injection Hres as _ <-. by rewrite returned_not_failure in Hfail.
    + injection Hres as _ <-. eauto.
    + by destruct (on_data orders headers c (db σ) row).
    + injection Hres as _ <-. eauto.
  - intros Db Stmt driver tableName headers c d. by rewrite end_handler_spec.
  - intros d r. split; [eexists; vm_compute; reflexivity|].
    unfold r. rewrite deferring_end_of_pass by (cbn [length]; unfold batchSize; lia).
    cbn [end_db end_isDatabaseInitialized end_totalRows store pending length].
    split_and!; done.
Qed.

(** An error of the parser stream in the middle of the insertion pass: the
    one way for the pass to fail. *)
Lemma insert_errors_never_fail_a_load_witness :
  let p := Inserting ApiInit ["a"] [[("a", JStr "1")]] [[("a", JStr "2")]]
             {| batch := [[("a", JStr "1")]]; totalRows := 0 |} in
  let r := Response 500 (Failure "Error initializing database: EIO") in
  resume p (StreamError "EIO") (set_isInitializing true (fresh None))
  = Some (fresh None, Finished r)
  ∧ ∃ message, StreamError "EIO" = StreamError message ∧ r = thrown ApiInit message.
Proof.
  intros p r. split; [reflexivity|].
  destruct insert_errors_never_fail_a_load as [Honly _].
  eapply (Honly ApiInit ["a"] [[("a", JStr "1")]] [[("a", JStr "2")]]
            {| batch := [[("a", JStr "1")]]; totalRows := 0 |}
            (StreamError "EIO") (set_isInitializing true (fresh None)) (fresh None) r);
    reflexivity.
Defined.

(** * The flags *)

(** X7: the two flags are never set together in a state the server can
    reach, so [/health], which is answered 200 with the two flags in every
    state, ready or not, and changes nothing, never reports both; and
    [/api/init] on a ready server always takes the fast path. *)
Theorem flags_never_both_set s :
  reachable s →
  isDatabaseInitialized (mem s) && isInitializing (mem s) = false
  ∧ step s (Arrive health_request)
    = Some {| mem := mem s;
              tasks := tasks s
                       ++ [Finished (Response 200
                                       (Health (isDatabaseInitialized (mem s))
                                          (isInitializing (mem s))))] |}
  ∧ (isDatabaseInitialized (mem s) = true →
     ∃ r, api_init (mem s) = Some (mem s, FastPragma r)).
Proof.
  intros Hreach. pose proof (inv_loader _ (reachable_invariant s Hreach)) as HL.
  assert (isDatabaseInitialized (mem s) && isInitializing (mem s) = false) as Hboth.
  { destruct (isInitializing (mem s)); [|by rewrite andb_false_r].
    destruct HL as (? & _ & -> & _). done. }
  split_and!; [done|done|].
  intros Hready. rewrite Hready in Hboth. cbn [andb] in Hboth.
  unfold api_init. rewrite Hready, Hboth. cbn [andb negb].
  rewrite runQuery_spec, db_all_read_only, set_db_same by done. eauto.
Qed.

Lemma flags_never_both_set_witness :
  step (boot (Some (csv_of ["a"] [["1"]]))) (Arrive health_request)
  = Some {| mem := set_isInitializing true (fresh (Some (csv_of ["a"] [["1"]])));
            tasks := [HeaderPass AutoInit (csv_of ["a"] [["1"]]);
                      Finished (Response 200 (Health false true))] |}.
Proof.
  assert (Hreach : reachable (boot (Some (csv_of ["a"] [["1"]]))))
    by (exists (Some (csv_of ["a"] [["1"]])), []; reflexivity).
  destruct (flags_never_both_set _ Hreach) as (_ & Hhealth & _).
  exact Hhealth.
Defined.

(** * What requests and callbacks leave alone *)



(** X10: a step that ends a load with an error undoes nothing: the database
    is left as the load had brought it (the old table stays dropped, the
    rows already inserted stay), and readiness, the file and the record of
    the last completed load are as before. *)
Theorem failed_load_keeps_database s t sg s' p r :
  tasks s !! t = Some p → is_loader p = true →
  step s (Wake t sg) = Some s' →
  tasks s' !! t = Some (Finished r) → is_failure r = true →
  db (mem s') = db (mem s)
  ∧ isDatabaseInitialized (mem s') = isDatabaseInitialized (mem s)
  ∧ lastLoad (mem s') = lastLoad (mem s)
  ∧ orders_csv (mem s') = orders_csv (mem s).
Proof.
  intros Ht Hp Hstep Ht' Hr.
  destruct (step_wake _ _ _ _ _ Ht Hstep) as (σ1 & p' & Hres & ->).
  cbn [mem tasks] in *.
  rewrite list_lookup_insert_eq in Ht' by (by eapply lookup_lt_Some).
  injection Ht' as ->.
  destruct (resume_cases _ _ _ _ _ Hres)
    as [Hq|? ? ? [=]|? [=]|? ? _ _ ? ? ? ? ?|? ? ? ? ? [= ->]]; try done.
  by rewrite returned_not_failure in Hr.
Qed.

Lemma failed_load_keeps_database_witness :
  let f := csv_of ["a"] [["1"]; ["2"]] in
  ∃ s s',
    run (boot (Some f))
      [Wake 0 StreamEnd; Wake 0 DbCallback; Wake 0 DbCallback; Wake 0 StreamData] = Some s
    ∧ step s (Wake 0 (StreamError "EIO")) = Some s'
    ∧ db (mem s') = db (mem s)
    ∧ db (mem s') !! orders = Some (loaded_table ["a"] []).
Proof.
  intros f. eexists. eexists.
  split; [vm_compute; reflexivity|].
  match goal with
  | |- step ?s _ = Some _ ∧ _ => set (s0 := s)
  end.
  split; [vm_compute; reflexivity|].
  split; [|vm_compute; reflexivity].
  match goal with
  | |- db (mem ?s') = _ =>
      destruct (failed_load_keeps_database s0 0 (StreamError "EIO") s'
                  (Inserting AutoInit ["a"] [[("a", JStr "1")]] [[("a", JStr "2")]]
                     {| batch := [[("a", JStr "1")]]; totalRows := 0 |})
                  (AutoError "EIO")) as (Hdb & _)
  end; [reflexivity|reflexivity|vm_compute; reflexivity|reflexivity|reflexivity|].
  exact Hdb.
Defined.

(** * Loads that fail early *)

Lemma reset_twice σ :
  isInitializing σ = false →
  set_isInitializing false (set_isInitializing false (set_isInitializing true σ)) = σ.
Proof. intros Hflag. destruct σ. simpl in *. by subst. Qed.

(** X11: a file without a usable header (no header row, or an empty one)
    fails the load before [DROP TABLE] is sent: [/api/init] is answered 500
    with the message of the header check, and the shared state, the flags
    and every table included, is exactly what it was before the call. *)
Theorem header_failure_touches_nothing σ l f :
  isInitializing σ = false → isDatabaseInitialized σ = false →
  orders_csv σ = Some f →
  csv_headers f = None ∨ csv_headers f = Some [] →
  run {| mem := σ; tasks := l |} [Arrive init_request; Wake (length l) StreamEnd]
  = Some {| mem := σ;
            tasks := l ++ [Finished (Response 500
                                   (Failure "Error initializing database: Failed to process CSV headers"))] |}.
Proof.
  intros Hflag Hready Hcsv Hhead. rewrite run_cons.
  rewrite (step_arrive _ _ _ _ _ (arrive_init_claims σ f Hflag Hready Hcsv)).
  cbn [mbind option_bind]. rewrite run_cons.
  erewrite (wake_last l _ (Finished (thrown ApiInit "Failed to process CSV headers"))
              _ σ).
  - done.
  - unfold resume. cbn [is_handler resume_load].
    destruct Hhead as [-> | ->]; cbn [length Nat.eqb]; unfold caught;
      by rewrite reset_twice.
Qed.

Lemma header_failure_touches_nothing_witness :
  let f := {| csv_headers := None; csv_records := [] |} in
  run {| mem := fresh (Some f); tasks := [] |} [Arrive init_request; Wake 0 StreamEnd]
  = Some {| mem := fresh (Some f);
            tasks := [Finished (Response 500
                                  (Failure "Error initializing database: Failed to process CSV headers"))] |}.
Proof.
  intros f.
  exact (header_failure_touches_nothing (fresh (Some f)) [] f
           eq_refl eq_refl eq_refl (or_introl eq_refl)).
Defined.

(** X12: an error that the CSV parser emits during the header pass of the
    start-up load is logged and swallowed.  For any file and any such
    ['error'] event of the parser stream, the state afterwards is the one of
    a server that never tried, no response is produced, and the next
    [/api/init] starts a load of its own.  (An error of the file stream
    under the parser is not such an event: nothing listens for it.) *)
Theorem startup_failure_is_swallowed f message :
  run (boot (Some f)) [Wake 0 (StreamError message)]
  = Some {| mem := fresh (Some f); tasks := [Finished (AutoError message)] |}
  ∧ run (boot (Some f)) [Wake 0 (StreamError message); Arrive init_request]
    = Some {| mem := set_isInitializing true (fresh (Some f));
              tasks := [Finished (AutoError message); HeaderPass ApiInit f] |}.
Proof. split; reflexivity. Qed.

(** * [/api/query] *)

(** X13: on a ready server [/api/query] hands the statement to the engine
    and answers 200 with the rows when the promise resolves, 400 with the
    engine's message when it rejects, never 5xx; neither flag changes.  A
    request without a query is answered 400 before the engine is called,
    and nothing changes at all. *)
Theorem query_is_answered_200_or_400 σ l :
  isDatabaseInitialized σ = true →
  (∀ q, ∃ r,
     run {| mem := σ; tasks := l |}
       [Arrive (query_request q); Wake (length l) DbCallback]
     = Some {| mem := set_db (db_all q (db σ)).1 σ; tasks := l ++ [Finished r] |}
     ∧ match (db_all q (db σ)).2 with
       | Resolved data => r = Response 200 (QueryData data)
       | Rejected m => r = Response 400 (Failure ("Error executing query: " +:+ m))
       end)
  ∧ step {| mem := σ; tasks := l |}
      (Arrive {| req_method := POST; req_path := "/api/query"; req_query := None |})
    = Some {| mem := σ;
              tasks := l ++ [Finished (Response 400 (Failure "Query is required"))] |}.
Proof.
  intros Hready. split.
  - intros q. exists (query_answer (db_all q (db σ)).2).
    split; [by apply query_runs|]. by destruct (db_all q (db σ)).2.
  - apply step_arrive. unfold arrive, checkDatabaseReady. cbn.
    by rewrite Hready.
Qed.

Lemma query_is_answered_200_or_400_witness :
  let σ := publish {[orders := loaded_table ["a"] [[("a", JStr "1")]]]} ["a"]
             [[("a", JStr "1")]] (fresh None) in
  (tasks <$> run {| mem := σ; tasks := [] |}
               [Arrive (query_request (SelectAll "trips")); Wake 0 DbCallback])
  = Some [Finished (Response 400
                      (Failure "Error executing query: SQLITE_ERROR: no such table: trips"))].
Proof.
  intros σ.
  destruct (query_is_answered_200_or_400 σ [] eq_refl) as [Hq _].
  destruct (Hq (SelectAll "trips")) as (r & Hrun & Hr).
  cbn [length] in Hrun. rewrite Hrun. vm_compute in Hr. rewrite Hr. reflexivity.
Defined.

(** * The insertion pass between callbacks *)

(** X14: whenever the server is between two callbacks of an insertion pass,
    the buffer holds fewer than 1000 records, buffered and counted records
    together are the records read so far, the flag is set and readiness is
    not published.  Nothing is said about the table: the rows counted in
    [totalRows] have been handed to the driver, not necessarily inserted. *)
Theorem insertion_pass_invariant s t k headers seen rest c :
  reachable s →
  tasks s !! t = Some (Inserting k headers seen rest c) →
  length (batch c) < batchSize
  ∧ totalRows c + length (batch c) = length seen
  ∧ isInitializing (mem s) = true
  ∧ isDatabaseInitialized (mem s) = false.
Proof.
  intros Hreach Ht. pose proof (reachable_invariant s Hreach) as Hinv.
  destruct s as [σ l]. cbn [mem tasks] in *.
  destruct (task_split l t _ (Finished AutoComplete) Ht) as (front & back & -> & _).
  destruct (loading_holds_flag _ _ _ _ Hinv eq_refl)
    as (Hflag & Hready & (flushed & Hseen & Htotal & Hlt & Hdb) & _).
  split_and!; try done.
  rewrite Hseen, List.length_app. lia.
Qed.

Lemma insertion_pass_invariant_witness :
  let f := csv_of ["a"] [["1"]; ["2"]] in
  ∃ s,
    run (boot (Some f))
      [Wake 0 StreamEnd; Wake 0 DbCallback; Wake 0 DbCallback; Wake 0 StreamData] = Some s
    ∧ isDatabaseInitialized (mem s) = false.
Proof.
  intros f. eexists. split; [vm_compute; reflexivity|].
  match goal with
  | |- isDatabaseInitialized (mem ?s) = false =>
      destruct (insertion_pass_invariant s 0 AutoInit ["a"]
                  [[("a", JStr "1")]] [[("a", JStr "2")]]
                  {| batch := [[("a", JStr "1")]]; totalRows := 0 |})
        as (_ & _ & _ & Hready)
  end.
  - exists (Some f),
      [Wake 0 StreamEnd; Wake 0 DbCallback; Wake 0 DbCallback; Wake 0 StreamData].
    vm_compute. reflexivity.
  - reflexivity.
  - exact Hready.
Defined.

(** * After the first completed load *)

Lemma run_keeps_ready evs : ∀ s s',
  run s evs = Some s' →
  isDatabaseInitialized (mem s) = true → isDatabaseInitialized (mem s') = true.
Proof.
  induction evs as [|e evs IH]; intros s s'; simpl.
  - by intros [= <-].
  - destruct (step s e) as [s1|] eqn:Hstep; [|discriminate]. simpl.
    intros Hrun Hready. eapply IH; [done|]. by eapply step_keeps_ready.
Qed.

(** X16: once a request has passed the gate because readiness was
    published, the gate lets every request through for the rest of the
    process lifetime, whatever happens in between (failed reads, tables
    dropped by clients, the file removed). *)
Theorem gate_stays_open s evs s' req :
  run s evs = Some s' →
  isDatabaseInitialized (mem s) = true →
  checkDatabaseReady req (mem s') = None.
Proof.
  intros Hrun Hready. unfold checkDatabaseReady.
  rewrite (run_keeps_ready _ _ _ Hrun Hready). cbn [negb].
  by destruct (_ || _).
Qed.

Lemma gate_stays_open_witness :
  let σ := publish {[orders := loaded_table ["a"] [[("a", JStr "1")]]]} ["a"]
             [[("a", JStr "1")]] (fresh None) in
  ∃ s', run {| mem := σ; tasks := [] |}
          [Arrive (query_request (DropTableIfExists orders)); Wake 0 DbCallback;
           FsWrite None] = Some s'
        ∧ db (mem s') !! orders = None
        ∧ checkDatabaseReady (query_request (SelectAll orders)) (mem s') = None.
Proof.
  intros σ. eexists. split; [vm_compute; reflexivity|].
  split; [vm_compute; reflexivity|].
  eapply (gate_stays_open {| mem := σ; tasks := [] |}
            [Arrive (query_request (DropTableIfExists orders)); Wake 0 DbCallback;
             FsWrite None]).
  - vm_compute. reflexivity.
  - reflexivity.
Defined.

Lemma ready_step_keeps_lastLoad s e s' :
  invariant s → isDatabaseInitialized (mem s) = true →
  step s e = Some s' → lastLoad (mem s') = lastLoad (mem s).
Proof.
  intros Hinv Hready. destruct e as [req|t sg|f]; cbn [step].
  - destruct (arrive req (mem s)) as [[σ1 p]|] eqn:Harr; [|discriminate].
    intros [= <-]. cbn [mem].
    by destruct (arrive_cases _ _ _ _ Harr) as [_ _ _ _ Hlast|? _ _ _ ->].
  - destruct (tasks s !! t) as [p|] eqn:Ht; [|discriminate]. cbn [mbind option_bind].
    destruct (resume p sg (mem s)) as [[σ1 p']|] eqn:Hres; [|discriminate].
    intros [= <-]. cbn [mem].
    destruct (resume_cases _ _ _ _ _ Hres)
      as [_ _ _ _ Hlast|? ? _ _ _ _ ->|_ _ _ _ Hlast|? ? _ _ _ _ _ Hlast|? ? ? ? Hp];
      try done.
    destruct s as [σ l]. cbn [mem tasks] in *. subst p.
    destruct (task_split l t _ (Finished AutoComplete) Ht) as (front & back & -> & _).
    destruct (loading_holds_flag _ _ _ _ Hinv eq_refl) as (_ & Hr & _). congruence.
  - by intros [= <-].
Qed.

(** X17: the file is loaded at most once per process.  From a reachable
    state in which readiness is published, no sequence of requests,
    callbacks and file changes makes any task load again: no task is ever
    loading, the flag [isInitializing] stays clear, and the completed load
    on record stays the same one. *)
Theorem ready_server_never_reloads s evs s' :
  reachable s → isDatabaseInitialized (mem s) = true →
  run s evs = Some s' →
  loaders s' = []
  ∧ isInitializing (mem s') = false
  ∧ lastLoad (mem s') = lastLoad (mem s).
Proof.
  intros Hreach Hready Hrun.
  assert (lastLoad (mem s') = lastLoad (mem s)) as Hlast.
  { pose proof (reachable_invariant s Hreach) as Hinv. clear Hreach.
    revert s Hready Hrun Hinv. induction evs as [|e evs IH]; intros s Hready; simpl.
    - by intros [= <-].
    - destruct (step s e) as [s1|] eqn:Hstep; [|discriminate]. simpl.
      intros Hrun Hinv. rewrite (IH s1); [by eapply ready_step_keeps_lastLoad| |done|].
      + by eapply step_keeps_ready.
      + by eapply step_invariant. }
  pose proof (run_keeps_ready _ _ _ Hrun Hready) as Hready'.
  assert (invariant s') as Hinv'.
  { eapply run_invariant; [done|]. by apply reachable_invariant. }
  pose proof (inv_loader _ Hinv') as HL.
  destruct (isInitializing (mem s')); [|done].
  destruct HL as (? & _ & ? & _). congruence.
Qed.

Lemma ready_server_never_reloads_witness :
  let f := csv_of ["a"] [["1"]] in
  let g := csv_of ["a"] [["1"]; ["2"]; ["3"]] in
  ∃ s s',
    run (boot (Some f)) (load_events 0 1) = Some s
    ∧ run s [FsWrite (Some g); Arrive init_request; Wake 1 DbCallback; Wake 1 DbCallback]
      = Some s'
    ∧ tasks s' = [Finished AutoComplete;
                  Finished (Response 200 (InitAlready (JNum 1) (inferSchema ["a"])))]
    ∧ lastLoad (mem s') = lastLoad (mem s).
Proof.
  intros f g. eexists. eexists.
  split; [vm_compute; reflexivity|].
  match goal with
  | |- run ?s _ = Some _ ∧ _ => set (s0 := s)
  end.
  split; [vm_compute; reflexivity|].
  split; [reflexivity|].
  match goal with
  | |- lastLoad (mem ?s') = _ =>
      destruct (ready_server_never_reloads s0
                  [FsWrite (Some g); Arrive init_request; Wake 1 DbCallback;
                   Wake 1 DbCallback] s') as (_ & _ & Hlast)
  end.
  - exists (Some f), (load_events 0 1). vm_compute. reflexivity.
  - reflexivity.
  - vm_compute. reflexivity.
  - exact Hlast.
Defined.
